(** * SCJingleConverter: the main window's handlers

    A shallow embedding of [Jingle/SCJingleConverter/mainwindow.cpp]: the
    handlers of [MainWindow] that own the vector of Compositions, talk to the
    controller over the serial port and derive what the widgets show.

    Handlers are written in a small state-and-exception monad over the
    window's state.  The classes [Composition] (composition.h) and
    [SCSerial] (scserial.h) are used by the window but defined elsewhere;
    they enter as the interface [Collaborators]. *)

From Stdlib Require Import ZArith Lia Ascii String.
From Stdlib Require Import DecimalString.
From stdpp Require Import base list strings.

Local Open Scope Z_scope.

(** ** Machine integers *)

Module Int.

(** [uint32_t]: conversions and arithmetic wrap modulo 2^32. *)
Definition UINT32_MOD : Z := 2 ^ 32.
Definition INT_MAX : Z := 2 ^ 31 - 1.

Definition to_uint32 (z : Z) : Z := z mod UINT32_MOD.

(** [static_cast<int>] of an unsigned value: two's complement. *)
Definition to_int (z : Z) : Z := (z + 2 ^ 31) mod UINT32_MOD - 2 ^ 31.

Definition is_uint32 (z : Z) : Prop := 0 <= z < UINT32_MOD.

End Int.

(** ** Strings *)

Module QStr.

Definition LF : string := String "010"%char EmptyString.
Definition CR : string := String "013"%char EmptyString.

Definition size (s : string) : Z := Z.of_nat (String.length s).

(** [QString::split(sep)] with the default [KeepEmptyParts]: the pieces
    between occurrences of [sep]; never an empty list. *)
Fixpoint split (sep : ascii) (s : string) : list string :=
  match s with
  | EmptyString => [EmptyString]
  | String c r =>
      if Ascii.eqb c sep then EmptyString :: split sep r
      else match split sep r with
           | [] => [String c EmptyString]
           | piece :: pieces => String c piece :: pieces
           end
  end.

(** [QString::left(n)] *)
Fixpoint left (n : nat) (s : string) : string :=
  match n, s with
  | O, _ => EmptyString
  | S _, EmptyString => EmptyString
  | S n', String c r => String c (left n' r)
  end.

(** Whether the character [c] occurs in [s]. *)
Fixpoint occurs (c : ascii) (s : string) : bool :=
  match s with
  | EmptyString => false
  | String c' r => Ascii.eqb c' c || occurs c r
  end.

(** [QString::resize(n)]: a negative [n] counts as 0; shrinking keeps the
    first [n] characters.  (Growing would append unspecified characters;
    the window only ever shrinks.) *)
Definition resize (s : string) (n : Z) : string :=
  left (Z.to_nat (Z.max 0 n)) s.

End QStr.

(** ** The collaborating classes

    [Composition] and [SCSerial] are declared in composition.h and
    scserial.h, which are not part of this file's translation unit.  The
    window uses the members below; error codes are integers, [SCSerial]
    stands for the port together with the controller behind it. *)

Class Collaborators (Composition SCSerial : Type) := {
  (* composition.h: static constants, all of type uint32_t *)
  EEPROM_HDR_NUM_BYTES : Z;
  MAX_EEPROM_BYTES : Z;
  MAX_NUM_COMPS : Z;
  Composition_NO_ERROR : Z;
  (* Composition(filename), parse(), getMemUsage(), download(serial, idx) *)
  Composition_new : string -> Composition;
  parse : Composition -> Z * Composition;
  getMemUsage : Composition -> Z;
  download : Composition -> SCSerial -> Z -> Z * SCSerial;
  (* scserial.h: open() and send(cmd, resp) *)
  SCSerial_NO_ERROR : Z;
  serial_open : string -> SCSerial -> Z * SCSerial;
  serial_send : SCSerial -> string -> string -> Z * SCSerial
}.

(** Arguments substituted for %1, %2 in a translated message. *)
Inductive Arg :=
| ArgStr (s : string)
| ArgNum (n : Z)
| ArgSerialError (code : Z)        (* SCSerial::getErrorString(code) *)
| ArgCompositionError (code : Z).  (* Composition::getErrorString(code) *)

(** What a handler does to the outside, in order. *)
Inductive Event (Composition : Type) :=
| Information (title text : string) (args : list Arg)
| SerialOpen (port : string) (err : Z)
| SerialSend (cmd resp : string) (err : Z)
| Download (c : Composition) (jingle_idx : Z) (err : Z).

Arguments Information {Composition}.
Arguments SerialOpen {Composition}.
Arguments SerialSend {Composition}.
Arguments Download {Composition}.

(** A [Composition*] into the vector: [nullptr] or the address of slot
    [idx], which dangles when [idx] is not below the vector's size. *)
Inductive pointer := nullptr | slot (idx : nat).

Inductive exn :=
| out_of_range          (* thrown by std::vector::at *)
| undefined_behaviour.  (* access through a dangling pointer or index *)

(** ** The window *)

Record MainWindow (Composition SCSerial : Type) := {
  compositions : list Composition;
  jingleListWidget : list string;
  jingleListWidget_currentRow : Z;
  musicXmlPathLineEdit : string;
  serialPortComboBox : string;
  memUsageProgressBar : Z;
  memUsageCurrBytesLabel : list Arg;
  port : SCSerial;
  log : list (Event Composition)
}.

Arguments compositions {Composition SCSerial}.
Arguments jingleListWidget {Composition SCSerial}.
Arguments jingleListWidget_currentRow {Composition SCSerial}.
Arguments musicXmlPathLineEdit {Composition SCSerial}.
Arguments serialPortComboBox {Composition SCSerial}.
Arguments memUsageProgressBar {Composition SCSerial}.
Arguments memUsageCurrBytesLabel {Composition SCSerial}.
Arguments port {Composition SCSerial}.
Arguments log {Composition SCSerial}.

Section Window.

Context {Composition SCSerial : Type}.
Context `{!Collaborators Composition SCSerial}.

Abbreviation Window := (MainWindow Composition SCSerial).

Definition set_compositions (cs : list Composition) (w : Window) : Window :=
  {| compositions := cs;
     jingleListWidget := jingleListWidget w;
     jingleListWidget_currentRow := jingleListWidget_currentRow w;
     musicXmlPathLineEdit := musicXmlPathLineEdit w;
     serialPortComboBox := serialPortComboBox w;
     memUsageProgressBar := memUsageProgressBar w;
     memUsageCurrBytesLabel := memUsageCurrBytesLabel w;
     port := port w;
     log := log w |}.

Definition set_jingleListWidget (items : list string) (row : Z) (w : Window) : Window :=
  {| compositions := compositions w;
     jingleListWidget := items;
     jingleListWidget_currentRow := row;
     musicXmlPathLineEdit := musicXmlPathLineEdit w;
     serialPortComboBox := serialPortComboBox w;
     memUsageProgressBar := memUsageProgressBar w;
     memUsageCurrBytesLabel := memUsageCurrBytesLabel w;
     port := port w;
     log := log w |}.

Definition set_memUsage (value : Z) (text : list Arg) (w : Window) : Window :=
  {| compositions := compositions w;
     jingleListWidget := jingleListWidget w;
     jingleListWidget_currentRow := jingleListWidget_currentRow w;
     musicXmlPathLineEdit := musicXmlPathLineEdit w;
     serialPortComboBox := serialPortComboBox w;
     memUsageProgressBar := value;
     memUsageCurrBytesLabel := text;
     port := port w;
     log := log w |}.

Definition set_port (p : SCSerial) (w : Window) : Window :=
  {| compositions := compositions w;
     jingleListWidget := jingleListWidget w;
     jingleListWidget_currentRow := jingleListWidget_currentRow w;
     musicXmlPathLineEdit := musicXmlPathLineEdit w;
     serialPortComboBox := serialPortComboBox w;
     memUsageProgressBar := memUsageProgressBar w;
     memUsageCurrBytesLabel := memUsageCurrBytesLabel w;
     port := p;
     log := log w |}.

Definition set_log (l : list (Event Composition)) (w : Window) : Window :=
  {| compositions := compositions w;
     jingleListWidget := jingleListWidget w;
     jingleListWidget_currentRow := jingleListWidget_currentRow w;
     musicXmlPathLineEdit := musicXmlPathLineEdit w;
     serialPortComboBox := serialPortComboBox w;
     memUsageProgressBar := memUsageProgressBar w;
     memUsageCurrBytesLabel := memUsageCurrBytesLabel w;
     port := port w;
     log := l |}.

(** *** The handler monad: window state, and C++ exceptions *)

Inductive outcome (A : Type) :=
| Returns (a : A) (w : Window)
| Raises (e : exn) (w : Window).

Arguments Returns {A}.
Arguments Raises {A}.

Definition M (A : Type) : Type := Window -> outcome A.

Definition ret {A} (a : A) : M A := fun w => Returns a w.

Definition bind {A B} (m : M A) (k : A -> M B) : M B :=
  fun w => match m w with
           | Returns a w' => k a w'
           | Raises e w' => Raises e w'
           end.

Definition throw {A} (e : exn) : M A := fun w => Raises e w.
Definition get : M Window := fun w => Returns w w.
Definition modify (f : Window -> Window) : M unit := fun w => Returns tt (f w).

(** The window a handler leaves behind, however it ends. *)
Definition final {A} (o : outcome A) : Window :=
  match o with Returns _ w => w | Raises _ w => w end.

Definition emit (e : Event Composition) : M unit :=
  modify (fun w => set_log (log w ++ [e]) w).

End Window.

Arguments Returns {Composition SCSerial A}.
Arguments Raises {Composition SCSerial A}.

Notation "x <- m ;; k" := (bind m (fun x => k))
  (at level 100, m at next level, right associativity).
Notation "m ;;; k" := (bind m (fun _ => k))
  (at level 100, right associativity).

(** ** The list widget

    [QListWidget] as the list of its items' texts; rows are [int]s. *)

Module ListWidget.

Definition count (items : list string) : Z := Z.of_nat (length items).

(** [takeItem(row)]: removes and returns the item, null when [row] is not
    a row of the widget. *)
Definition takeItem (row : Z) (items : list string) : option string * list string :=
  if (0 <=? row) && (row <? count items)
  then (items !! Z.to_nat row, delete (Z.to_nat row) items)
  else (None, items).

(** [insertItem(row, item)]: nothing for a null item; the row is clamped
    to [0, count]. *)
Definition clamp_row (row : Z) (items : list string) : Z :=
  if row <? 0 then 0 else if row >? count items then count items else row.

Definition insertItem (row : Z) (item : option string) (items : list string) : list string :=
  match item with
  | None => items
  | Some text =>
      let r := Z.to_nat (clamp_row row items) in
      take r items ++ text :: drop r items
  end.

End ListWidget.

Section Handlers.

Context {Composition SCSerial : Type}.
Context `{!Collaborators Composition SCSerial}.

Abbreviation Window := (MainWindow Composition SCSerial).
Abbreviation Handler := (@M Composition SCSerial).

(** [QMessageBox::information(this, tr("Error"), text)] *)
Definition information (text : string) (args : list Arg) : Handler unit :=
  emit (Information "Error" text args).

(** [compositions.size()] as the [size_t] it is, and cast to [int]. *)
Definition size (w : Window) : Z := Z.of_nat (length (compositions w)).

(** Reading through a [Composition*]. *)
Definition deref (p : pointer) : Handler Composition :=
  w <- get ;;
  match p with
  | nullptr => throw undefined_behaviour
  | slot idx =>
      match compositions w !! idx with
      | Some c => ret c
      | None => throw undefined_behaviour
      end
  end.

(** [compositions.at(idx)] and [compositions[idx]] *)
Definition vec_at (idx : Z) : Handler Composition :=
  w <- get ;;
  match compositions w !! Z.to_nat idx with
  | Some c => ret c
  | None => throw out_of_range
  end.

Definition vec_index (idx : Z) : Handler Composition :=
  w <- get ;;
  match compositions w !! Z.to_nat idx with
  | Some c => ret c
  | None => throw undefined_behaviour
  end.

(** [compositions[idx] = c] *)
Definition vec_assign (idx : Z) (c : Composition) : Handler unit :=
  w <- get ;;
  if (0 <=? idx) && (idx <? size w)
  then modify (set_compositions (<[Z.to_nat idx := c]> (compositions w)))
  else throw undefined_behaviour.

Definition getSelectedComposition : Handler pointer :=
  w <- get ;;
  let comp_idx := jingleListWidget_currentRow w in
  if (comp_idx >? Int.to_int (size w)) || (comp_idx <? 0) then
    information "Invalid Composition selected" [] ;;;
    ret nullptr
  else
    ret (slot (Z.to_nat (Int.to_uint32 comp_idx))).

(** *** Download and play *)

Definition clear_cmd : string := "jingle clear" +:+ QStr.LF.
Definition clear_resp : string :=
  clear_cmd +:+ QStr.CR +:+ "Jingle data cleared successfully." +:+ QStr.LF +:+ QStr.CR.
Definition play_cmd : string := "jingle play 0" +:+ QStr.LF.
Definition play_resp : string :=
  play_cmd +:+ QStr.CR +:+ "Jingle play started successfully." +:+ QStr.LF +:+ QStr.CR.

Definition open (serial_port_name : string) : Handler Z :=
  w <- get ;;
  let '(err, p) := serial_open serial_port_name (port w) in
  modify (set_port p) ;;;
  emit (SerialOpen serial_port_name err) ;;;
  ret err.

Definition send (cmd resp : string) : Handler Z :=
  w <- get ;;
  let '(err, p) := serial_send (port w) cmd resp in
  modify (set_port p) ;;;
  emit (SerialSend cmd resp err) ;;;
  ret err.

Definition call_download (composition : pointer) (jingle_idx : Z) : Handler Z :=
  c <- deref composition ;;
  w <- get ;;
  let '(err, p) := download c (port w) jingle_idx in
  modify (set_port p) ;;;
  emit (Download c jingle_idx err) ;;;
  ret err.

Definition on_playJinglePushButton_clicked : Handler unit :=
  w <- get ;;
  let serial_port_name := serialPortComboBox w in
  if size w =? 0 then
    information "No Compositions to Play" []
  else
    composition <- getSelectedComposition ;;
    match composition with
    | nullptr => ret tt
    | _ =>
      serial_err_code <- open serial_port_name ;;
      if negb (serial_err_code =? SCSerial_NO_ERROR) then
        information ("Cannot open %1." +:+ QStr.LF +:+ QStr.LF +:+ "Error: %2")
          [ArgStr serial_port_name; ArgSerialError serial_err_code]
      else
        (* Make sure there is enough memory to download Jingle... *)
        c <- deref composition ;;
        let num_bytes := Int.to_uint32 (EEPROM_HDR_NUM_BYTES + getMemUsage c) in
        if num_bytes >? MAX_EEPROM_BYTES then
          information
            ("Jingle is too large (%1/%2 bytes). Try using configuration "
             +:+ "options to reduce size.")
            [ArgNum num_bytes; ArgNum MAX_EEPROM_BYTES]
        else
          sent <- send clear_cmd clear_resp ;;
          if negb (sent =? 0) then
            information "Failed to clear Jingle Data." []
          else
            comp_err_code <- call_download composition 0 ;;
            if negb (comp_err_code =? Composition_NO_ERROR) then
              information ("Cannot download to %1." +:+ QStr.LF +:+ QStr.LF +:+ "Error: %2")
                [ArgStr serial_port_name; ArgCompositionError comp_err_code]
            else
              (* Since we clear before add Jingle, it will always be at index 0 *)
              played <- send play_cmd play_resp ;;
              if negb (played =? 0) then
                information "Failed to send play command." []
              else ret tt
    end.

(** *** The memory gauge *)

Definition PROG_BAR_MAX : Z := 100.

(** The loop of [updateMemUsage]: [num_bytes += compositions[i].getMemUsage()]
    over the vector, in [uint32_t]. *)
Definition add_mem_usage (num_bytes : Z) (c : Composition) : Z :=
  Int.to_uint32 (num_bytes + getMemUsage c).

Definition total_num_bytes (cs : list Composition) : Z :=
  fold_left add_mem_usage cs (Int.to_uint32 EEPROM_HDR_NUM_BYTES).

(** The argument of [memUsageProgressBar->setValue]; the product and the
    quotient are unsigned, the parameter is an [int]. *)
Definition progress_value (num_bytes : Z) : Z :=
  if num_bytes >=? MAX_EEPROM_BYTES then PROG_BAR_MAX
  else Int.to_int (Int.to_uint32 (PROG_BAR_MAX * num_bytes) / MAX_EEPROM_BYTES).

Definition updateMemUsage : Handler unit :=
  w <- get ;;
  let num_bytes := total_num_bytes (compositions w) in
  modify (set_memUsage (progress_value num_bytes)
            [ArgNum num_bytes; ArgStr "/"; ArgNum MAX_EEPROM_BYTES;
             ArgStr " bytes used"]).

(** [updateCompositionDisplay] reads the selected Composition and refills
    the measure, tempo, voice and chord widgets, none of which is part of
    [MainWindow] here; what remains is the selection and the read. *)
Definition updateCompositionDisplay : Handler unit :=
  composition <- getSelectedComposition ;;
  match composition with
  | nullptr => ret tt
  | _ => _ <- deref composition ;; ret tt
  end.

(** *** Convert: parse a file and add it *)

Definition push_back (c : Composition) : Handler unit :=
  modify (fun w => set_compositions (compositions w ++ [c]) w).

Definition pop_back : Handler unit :=
  w <- get ;;
  match compositions w with
  | [] => throw undefined_behaviour
  | _ => modify (set_compositions (removelast (compositions w)))
  end.

(** [compositions.back().parse()]: parses in place. *)
Definition parse_back : Handler Z :=
  w <- get ;;
  match last (compositions w) with
  | None => throw undefined_behaviour
  | Some c =>
      let '(err, parsed) := parse c in
      modify (set_compositions
                (<[Nat.pred (length (compositions w)) := parsed]> (compositions w))) ;;;
      ret err
  end.

(** [list[list.size()-1]] on the result of a split. *)
Definition last_piece (pieces : list string) : string :=
  default EmptyString (pieces !! Nat.pred (length pieces)).

(** The string that identifies a Composition in the list widget. *)
Definition display_label (filename : string) : string :=
  (* Remove path *)
  let filename := last_piece (QStr.split "/" filename) in
  let filename := last_piece (QStr.split "\" filename) in
  (* Remove .musicxml extension *)
  QStr.resize filename (QStr.size filename - QStr.size ".musicxml").

Definition addItem (text : string) : Handler unit :=
  modify (fun w => set_jingleListWidget (jingleListWidget w ++ [text])
                     (jingleListWidget_currentRow w) w).

(** [setCurrentItem(item(count()-1))] *)
Definition select_last_item : Handler unit :=
  modify (fun w => set_jingleListWidget (jingleListWidget w)
                     (ListWidget.count (jingleListWidget w) - 1) w).

Definition on_convertPushButton_clicked : Handler unit :=
  w <- get ;;
  if size w >? MAX_NUM_COMPS then
    information ("Too many Compositions have been added. "
                 +:+ "Please delete before attemping to add another.") []
  else
    let filename := musicXmlPathLineEdit w in
    push_back (Composition_new filename) ;;;
    comp_err_code <- parse_back ;;
    if negb (Composition_NO_ERROR =? comp_err_code) then
      information ("Failed to parse file '%1'." +:+ QStr.LF +:+ "Error: %2")
        [ArgStr filename; ArgCompositionError comp_err_code] ;;;
      pop_back
    else
      (* Create string to identify this Composition *)
      addItem (display_label filename) ;;;
      select_last_item ;;;
      (* Update GUI to show specs on newly added Composition *)
      updateCompositionDisplay ;;;
      (* Update memory usage display since Composition has been added *)
      updateMemUsage.

(** *** Delete and reorder *)

Definition on_delJingleToolButton_clicked : Handler unit :=
  composition <- getSelectedComposition ;;
  match composition with
  | nullptr => ret tt
  | _ =>
    w <- get ;;
    let comp_idx := jingleListWidget_currentRow w in
    (* erase(begin() + comp_idx): erasing end() is undefined *)
    if comp_idx <? size w then
      modify (set_compositions (delete (Z.to_nat comp_idx) (compositions w))) ;;;
      modify (fun w => set_jingleListWidget
                         (ListWidget.takeItem comp_idx (jingleListWidget w)).2 (-1) w) ;;;
      updateMemUsage
    else throw undefined_behaviour
  end.

(** [takeItem(comp_idx)], [insertItem(to, item)], [setCurrentItem(item)].
    In the handlers below [comp_idx + 1] is [int] arithmetic, taken to
    wrap, and the indices are [static_cast<uint32_t>(comp_idx)] plus or
    minus one in [uint32_t]. *)
Definition move_item (comp_idx to : Z) : Handler unit :=
  modify (fun w =>
    let '(item, rest) := ListWidget.takeItem comp_idx (jingleListWidget w) in
    set_jingleListWidget (ListWidget.insertItem to item rest)
      (match item with
       | Some _ => ListWidget.clamp_row to rest
       | None => -1
       end) w).

Definition on_mvJingleDownToolButton_clicked : Handler unit :=
  composition <- getSelectedComposition ;;
  match composition with
  | nullptr => ret tt
  | _ =>
    w <- get ;;
    let comp_idx := jingleListWidget_currentRow w in
    if Int.to_int (comp_idx + 1) >=? Int.to_int (size w) then ret tt
    else
      move_item comp_idx (comp_idx + 1) ;;;
      comp <- vec_at (Int.to_uint32 comp_idx) ;;
      next <- vec_index (Int.to_uint32 (Int.to_uint32 comp_idx + 1)) ;;
      vec_assign (Int.to_uint32 comp_idx) next ;;;
      vec_assign (Int.to_uint32 (Int.to_uint32 comp_idx + 1)) comp
  end.

Definition on_mvJingleUpToolButton_clicked : Handler unit :=
  composition <- getSelectedComposition ;;
  match composition with
  | nullptr => ret tt
  | _ =>
    w <- get ;;
    let comp_idx := jingleListWidget_currentRow w in
    if comp_idx =? 0 then ret tt
    else
      move_item comp_idx (comp_idx - 1) ;;;
      comp <- vec_at (Int.to_uint32 comp_idx) ;;
      prev <- vec_index (Int.to_uint32 (Int.to_uint32 comp_idx - 1)) ;;
      vec_assign (Int.to_uint32 comp_idx) prev ;;;
      vec_assign (Int.to_uint32 (Int.to_uint32 comp_idx - 1)) comp
  end.

End Handlers.

(** ** Runs *)

Section Runs.

Context {Composition SCSerial : Type}.
Context `{!Collaborators Composition SCSerial}.

(** The events of one call of a handler, in order. *)
(** One call of a handler, observed from an empty log. *)
Definition run {A} (handler : @M Composition SCSerial A)
    (w : MainWindow Composition SCSerial) : outcome A :=
  handler (set_log [] w).

(** The window after the call, and the events of the call in order. *)
Definition after {A} (handler : @M Composition SCSerial A)
    (w : MainWindow Composition SCSerial) : MainWindow Composition SCSerial :=
  final (run handler w).

Definition trace {A} (handler : @M Composition SCSerial A)
    (w : MainWindow Composition SCSerial) : list (Event Composition) :=
  log (after handler w).


(** The Composition behind the pointer that [getSelectedComposition]
    returns for the current row. *)
Definition selected (w : MainWindow Composition SCSerial) (c : Composition) : Prop :=
  compositions w !! Z.to_nat (Int.to_uint32 (jingleListWidget_currentRow w)) = Some c.

(** The ways through [on_playJinglePushButton_clicked], each with the
    events it leaves. *)
Inductive play_path (w : MainWindow Composition SCSerial) :
    list (Event Composition) -> Prop :=
| play_no_compositions :
    size w = 0 ->
    play_path w [Information "Error" "No Compositions to Play" []]
| play_invalid_selection :
    size w <> 0 ->
    jingleListWidget_currentRow w > Int.to_int (size w)
    \/ jingleListWidget_currentRow w < 0 ->
    play_path w [Information "Error" "Invalid Composition selected" []]
| play_cannot_open err :
    err <> SCSerial_NO_ERROR ->
    play_path w
      [SerialOpen (serialPortComboBox w) err;
       Information "Error"
         ("Cannot open %1." +:+ QStr.LF +:+ QStr.LF +:+ "Error: %2")
         [ArgStr (serialPortComboBox w); ArgSerialError err]]
| play_dangling :
    compositions w !! Z.to_nat (Int.to_uint32 (jingleListWidget_currentRow w)) = None ->
    play_path w [SerialOpen (serialPortComboBox w) SCSerial_NO_ERROR]
| play_too_large c :
    selected w c ->
    Int.to_uint32 (EEPROM_HDR_NUM_BYTES + getMemUsage c) > MAX_EEPROM_BYTES ->
    play_path w
      [SerialOpen (serialPortComboBox w) SCSerial_NO_ERROR;
       Information "Error"
         ("Jingle is too large (%1/%2 bytes). Try using configuration "
          +:+ "options to reduce size.")
         [ArgNum (Int.to_uint32 (EEPROM_HDR_NUM_BYTES + getMemUsage c));
          ArgNum MAX_EEPROM_BYTES]]
| play_clear_failed c err :
    selected w c ->
    Int.to_uint32 (EEPROM_HDR_NUM_BYTES + getMemUsage c) <= MAX_EEPROM_BYTES ->
    err <> 0 ->
    play_path w
      [SerialOpen (serialPortComboBox w) SCSerial_NO_ERROR;
       SerialSend clear_cmd clear_resp err;
       Information "Error" "Failed to clear Jingle Data." []]
| play_download_failed c err :
    selected w c ->
    Int.to_uint32 (EEPROM_HDR_NUM_BYTES + getMemUsage c) <= MAX_EEPROM_BYTES ->
    err <> Composition_NO_ERROR ->
    play_path w
      [SerialOpen (serialPortComboBox w) SCSerial_NO_ERROR;
       SerialSend clear_cmd clear_resp 0;
       Download c 0 err;
       Information "Error"
         ("Cannot download to %1." +:+ QStr.LF +:+ QStr.LF +:+ "Error: %2")
         [ArgStr (serialPortComboBox w); ArgCompositionError err]]
| play_command_failed c err :
    selected w c ->
    Int.to_uint32 (EEPROM_HDR_NUM_BYTES + getMemUsage c) <= MAX_EEPROM_BYTES ->
    err <> 0 ->
    play_path w
      [SerialOpen (serialPortComboBox w) SCSerial_NO_ERROR;
       SerialSend clear_cmd clear_resp 0;
       Download c 0 Composition_NO_ERROR;
       SerialSend play_cmd play_resp err;
       Information "Error" "Failed to send play command." []]
| play_started c :
    selected w c ->
    Int.to_uint32 (EEPROM_HDR_NUM_BYTES + getMemUsage c) <= MAX_EEPROM_BYTES ->
    play_path w
      [SerialOpen (serialPortComboBox w) SCSerial_NO_ERROR;
       SerialSend clear_cmd clear_resp 0;
       Download c 0 Composition_NO_ERROR;
       SerialSend play_cmd play_resp 0].

(** The window as it is once a file has been parsed and listed. *)
Definition listed (w : MainWindow Composition SCSerial) (parsed : Composition)
    : MainWindow Composition SCSerial :=
  set_jingleListWidget
    (jingleListWidget w ++ [display_label (musicXmlPathLineEdit w)])
    (ListWidget.count
       (jingleListWidget w ++ [display_label (musicXmlPathLineEdit w)]) - 1)
    (set_compositions (compositions w ++ [parsed]) w).

(** The plain sum of the members' memory usage. *)
Definition sum_mem_usage (cs : list Composition) : Z :=
  foldr Z.add 0 (getMemUsage <$> cs).

End Runs.

(** [cs'] is [cs] with the neighbours at [i] and [i + 1] exchanged: the two
    slots trade their values, every other slot keeps its own, and nothing
    is added or lost. *)
Definition adjacent_swap {A} (i : nat) (cs cs' : list A) : Prop :=
  cs' !! i = cs !! S i
  /\ cs' !! S i = cs !! i
  /\ (forall j, j <> i -> j <> S i -> cs' !! j = cs !! j)
  /\ length cs' = length cs
  /\ cs' ≡ₚ cs.

(** A file name without directories: neither separator occurs in it. *)
Definition is_segment (s : string) : Prop :=
  QStr.occurs "/" s = false /\ QStr.occurs "\" s = false.

(** A run of leading path components: empty, or ending in a separator. *)
Definition is_directory_prefix (s : string) : Prop :=
  s = EmptyString \/ exists d, s = d +:+ "/" \/ s = d +:+ "\".

(** The command/response table of the serial protocol. *)
Definition protocol_table : list (string * string) :=
  [ ("jingle clear" +:+ QStr.LF,
     "jingle clear" +:+ QStr.LF +:+ QStr.CR
       +:+ "Jingle data cleared successfully." +:+ QStr.LF +:+ QStr.CR);
    ("jingle play 0" +:+ QStr.LF,
     "jingle play 0" +:+ QStr.LF +:+ QStr.CR
       +:+ "Jingle play started successfully." +:+ QStr.LF +:+ QStr.CR) ].

(** ** A bench: scripted Compositions and a scripted controller *)

Module Bench.

Record Composition := {
  filename : string;
  parsed : bool;
  mem_usage : Z
}.

(** The controller answers a command with a line of its own choosing and
    remembers what it was sent. *)
Record SCSerial := {
  script : list (string * string);
  received : list string;
  is_open : bool
}.

Definition answer (s : SCSerial) (cmd : string) : string :=
  default EmptyString (snd <$> List.find (fun line => String.eqb line.1 cmd) (script s)).

Definition parse_file (c : Composition) : Z * Composition :=
  if String.prefix "broken" (filename c) then (1, c)
  else (0, {| filename := filename c; parsed := true;
              mem_usage := 2 + Z.of_nat (String.length (filename c)) |}).

(** Modelled from the spec: [SCSerial::send] (scserial.cpp is not among
    the sources) writes the command and succeeds only if the response
    starts with the expected response. *)
Definition exchange (s : SCSerial) (cmd resp : string) : Z * SCSerial :=
  (if String.prefix resp (answer s cmd) then 0 else 1,
   {| script := script s; received := received s ++ [cmd]; is_open := is_open s |}).

Definition acquire (name : string) (s : SCSerial) : Z * SCSerial :=
  (0, {| script := script s; received := received s; is_open := true |}).

Definition transfer (c : Composition) (s : SCSerial) (jingle_idx : Z) : Z * SCSerial :=
  (0, {| script := script s; received := received s ++ ["<payload>"];
         is_open := is_open s |}).

#[export] Instance collaborators : Collaborators Composition SCSerial := {|
  EEPROM_HDR_NUM_BYTES := 10;
  MAX_EEPROM_BYTES := 1000;
  MAX_NUM_COMPS := 2;
  Composition_NO_ERROR := 0;
  Composition_new := fun name => {| filename := name; parsed := false; mem_usage := 0 |};
  parse := parse_file;
  getMemUsage := mem_usage;
  download := transfer;
  SCSerial_NO_ERROR := 0;
  serial_open := acquire;
  serial_send := exchange
|}.

(** A controller that acknowledges every command. *)
Definition obliging : SCSerial :=
  {| script := [(clear_cmd, clear_resp); (play_cmd, play_resp)];
     received := []; is_open := false |}.

(** A controller that answers the clear command with an error line. *)
Definition refusing : SCSerial :=
  {| script := [(clear_cmd, clear_cmd +:+ QStr.CR +:+ "ERROR" +:+ QStr.LF +:+ QStr.CR);
                (play_cmd, play_resp)];
     received := []; is_open := false |}.

Definition jingle (name : string) (bytes : Z) : Composition :=
  {| filename := name; parsed := true; mem_usage := bytes |}.

Definition window (cs : list Composition) (row : Z) (path : string)
    (s : SCSerial) : MainWindow Composition SCSerial :=
  {| compositions := cs;
     jingleListWidget := (fun c => display_label (filename c)) <$> cs;
     jingleListWidget_currentRow := row;
     musicXmlPathLineEdit := path;
     serialPortComboBox := "COM3";
     memUsageProgressBar := 0;
     memUsageCurrBytesLabel := [];
     port := s;
     log := [] |}.

(** Windows for the scenarios below. *)
Definition tune : Composition := jingle "tune.musicxml" 600.
Definition march : Composition := jingle "march.musicxml" 600.
Definition waltz : Composition := jingle "waltz.musicxml" 30.

Definition two_large := window [tune; march] 0 EmptyString obliging.
Definition one_too_large := window [jingle "big.musicxml" 995] 0 EmptyString obliging.
Definition refused := window [tune] 0 EmptyString refusing.
Definition full := window [tune; waltz] 1 "C:\Music\Scores/third.musicxml" obliging.
Definition unreadable := window [tune] 0 "broken.musicxml" obliging.
Definition three := window [tune; march; waltz] 1 EmptyString obliging.
Definition past_the_end := window [tune] 1 EmptyString obliging.


End Bench.

(** * Properties *)

(** ** Machine integers *)

Lemma to_uint32_range z : Int.is_uint32 (Int.to_uint32 z).
Proof.
  unfold Int.is_uint32, Int.to_uint32, Int.UINT32_MOD.
  apply Z.mod_pos_bound. lia.
Qed.

Lemma to_uint32_small z : Int.is_uint32 z -> Int.to_uint32 z = z.
Proof. unfold Int.is_uint32, Int.to_uint32. intros Hz. by apply Z.mod_small. Qed.

Lemma to_int_small z : - 2 ^ 31 <= z <= Int.INT_MAX -> Int.to_int z = z.
Proof.
  unfold Int.to_int, Int.INT_MAX, Int.UINT32_MOD. intros Hz.
  rewrite Z.mod_small; lia.
Qed.

Lemma to_uint32_add_l a b :
  Int.to_uint32 (Int.to_uint32 a + b) = Int.to_uint32 (a + b).
Proof. unfold Int.to_uint32. by rewrite Zplus_mod_idemp_l. Qed.

Lemma index_small z :
  0 <= z <= Int.INT_MAX -> Z.to_nat (Int.to_uint32 z) = Z.to_nat z.
Proof.
  intros Hz. rewrite to_uint32_small; [done|].
  unfold Int.is_uint32, Int.UINT32_MOD, Int.INT_MAX in *. lia.
Qed.

(** ** The memory gauge *)

Section Gauge.

Context {Composition SCSerial : Type}.
Context `{!Collaborators Composition SCSerial}.
Implicit Types (cs : list Composition) (w : MainWindow Composition SCSerial).

Lemma sum_mem_usage_cons c cs :
  sum_mem_usage (c :: cs) = getMemUsage c + sum_mem_usage cs.
Proof. reflexivity. Qed.

Lemma fold_add_mem_usage cs acc :
  fold_left add_mem_usage cs (Int.to_uint32 acc)
  = Int.to_uint32 (acc + sum_mem_usage cs).
Proof.
  revert acc. induction cs as [|c cs IH]; intros acc.
  - cbn. by rewrite Z.add_0_r.
  - rewrite sum_mem_usage_cons. cbn [fold_left].
    unfold add_mem_usage at 2. rewrite to_uint32_add_l, IH.
    f_equal. lia.
Qed.

Lemma total_num_bytes_wraps cs :
  total_num_bytes cs = Int.to_uint32 (EEPROM_HDR_NUM_BYTES + sum_mem_usage cs).
Proof. apply fold_add_mem_usage. Qed.

Lemma sum_mem_usage_perm cs cs' :
  cs ≡ₚ cs' -> sum_mem_usage cs = sum_mem_usage cs'.
Proof.
  induction 1 as [|c l l' _ IH|c d l|l l' l'' _ IH1 _ IH2];
    rewrite ?sum_mem_usage_cons; lia.
Qed.

Lemma updateMemUsage_returns w :
  updateMemUsage w
  = Returns tt
      (set_memUsage (progress_value (total_num_bytes (compositions w)))
         [ArgNum (total_num_bytes (compositions w)); ArgStr "/";
          ArgNum MAX_EEPROM_BYTES; ArgStr " bytes used"] w).
Proof. reflexivity. Qed.

(** C7.  The byte count that [updateMemUsage] shows is the header size
    plus the sum of [getMemUsage()] over all members, as a [uint32_t]
    (the plain sum whenever that fits 32 bits), and two windows whose
    vectors are permutations of each other show the same count. *)
Theorem updateMemUsage_total_is_header_plus_sum w w' :
  let shown w :=
    memUsageCurrBytesLabel (after updateMemUsage w) in
  let total := EEPROM_HDR_NUM_BYTES + sum_mem_usage (compositions w) in
  shown w = [ArgNum (Int.to_uint32 total); ArgStr "/";
             ArgNum MAX_EEPROM_BYTES; ArgStr " bytes used"]
  /\ (Int.is_uint32 total -> total_num_bytes (compositions w) = total)
  /\ (compositions w ≡ₚ compositions w' ->
      total_num_bytes (compositions w') = total_num_bytes (compositions w)
      /\ shown w' = shown w).
Proof.
  cbv zeta. unfold after, run. rewrite !updateMemUsage_returns. cbn.
  rewrite ?fold_add_mem_usage, ?total_num_bytes_wraps. split; [done|]. split.
  - apply to_uint32_small.
  - intros Hperm. by rewrite (sum_mem_usage_perm _ _ Hperm).
Qed.

Lemma wrapped_percentage_le_99 n m :
  0 <= n < m -> 0 <= Int.to_uint32 (100 * n) / m <= 99.
Proof.
  intros Hn.
  pose proof (to_uint32_range (100 * n)) as Hr.
  unfold Int.is_uint32, Int.UINT32_MOD in Hr.
  split; [apply Z.div_pos; lia|].
  assert (Int.to_uint32 (100 * n) / m < 100); [|lia].
  apply Z.div_lt_upper_bound; [lia|].
  destruct (Z_lt_ge_dec (100 * n) (2 ^ 32)) as [Hfit|Hwrap].
  - rewrite to_uint32_small; [lia|]. unfold Int.is_uint32, Int.UINT32_MOD. lia.
  - lia.
Qed.

Lemma progress_value_range nb :
  0 <= nb -> 0 <= progress_value nb <= 100.
Proof.
  intros Hnb. unfold progress_value, PROG_BAR_MAX.
  destruct (Z.geb_spec nb MAX_EEPROM_BYTES) as [Hge|Hlt]; [lia|].
  pose proof (wrapped_percentage_le_99 nb MAX_EEPROM_BYTES) as Hp.
  rewrite to_int_small; unfold Int.INT_MAX; lia.
Qed.

(** C10.  The value [updateMemUsage] gives the progress bar lies in
    [0, 100].  With [num_bytes] the header size plus all members' memory
    usage (a [uint32_t]), it is 100 when [num_bytes >= MAX_EEPROM_BYTES];
    otherwise it is the unsigned quotient of [100 * num_bytes] by
    [MAX_EEPROM_BYTES], at most 99, and equal to
    [floor (100 * num_bytes / MAX_EEPROM_BYTES)] whenever the product fits
    32 bits. *)
Theorem updateMemUsage_progress_in_range w :
  let num_bytes :=
    Int.to_uint32 (EEPROM_HDR_NUM_BYTES + sum_mem_usage (compositions w)) in
  let value := memUsageProgressBar (after updateMemUsage w) in
  0 <= value <= 100
  /\ (num_bytes >= MAX_EEPROM_BYTES -> value = 100)
  /\ (num_bytes < MAX_EEPROM_BYTES ->
      value = Int.to_uint32 (100 * num_bytes) / MAX_EEPROM_BYTES
      /\ value <= 99
      /\ (Int.is_uint32 (100 * num_bytes) ->
          value = 100 * num_bytes / MAX_EEPROM_BYTES)).
Proof.
  cbv zeta. unfold after, run. rewrite updateMemUsage_returns. cbn.
  rewrite ?fold_add_mem_usage, ?total_num_bytes_wraps.
  set (nb := Int.to_uint32 _).
  assert (0 <= nb) as Hnb by apply to_uint32_range.
  split; [by apply progress_value_range|].
  unfold progress_value, PROG_BAR_MAX.
  split; intros Hcmp.
  - destruct (Z.geb_spec nb MAX_EEPROM_BYTES); [done|lia].
  - destruct (Z.geb_spec nb MAX_EEPROM_BYTES); [lia|].
    pose proof (wrapped_percentage_le_99 nb MAX_EEPROM_BYTES) as Hp.
    rewrite to_int_small by (unfold Int.INT_MAX; lia).
    split; [done|]. split; [lia|].
    intros Hfit. by rewrite to_uint32_small.
Qed.

End Gauge.

(** ** Download and play *)

(** Unfolds a handler down to the window it leaves, one case per path. *)
Ltac unfold_monad :=
  unfold bind, get, ret, throw, modify, emit, information, size in *.

Ltac run_handler :=
  unfold_monad; cbn in *;
  repeat (case_match; unfold_monad; cbn in *; simplify_eq/=; try done).

Ltac bool_to_Prop :=
  repeat match goal with
    | H : negb _ = true |- _ => apply negb_true_iff in H
    | H : negb _ = false |- _ => apply negb_false_iff in H
    | H : _ || _ = true |- _ => apply orb_true_iff in H; destruct H
    | H : _ || _ = false |- _ => apply orb_false_iff in H; destruct H
    | H : _ && _ = true |- _ => apply andb_true_iff in H; destruct H
    | H : _ && _ = false |- _ => apply andb_false_iff in H
    | H : (_ =? _) = true |- _ => apply Z.eqb_eq in H
    | H : (_ =? _) = false |- _ => apply Z.eqb_neq in H
    | H : (_ >? _) = true |- _ => rewrite Z.gtb_gt in H
    | H : (_ >? _) = false |- _ => rewrite Z.gtb_ltb, Z.ltb_ge in H
    | H : (_ <? _) = true |- _ => apply Z.ltb_lt in H
    | H : (_ <? _) = false |- _ => apply Z.ltb_ge in H
    | H : (_ >=? _) = true |- _ => rewrite Z.geb_le in H
    | H : (_ >=? _) = false |- _ => rewrite Z.geb_leb, Z.leb_gt in H
    | H : (_ <=? _) = true |- _ => apply Z.leb_le in H
    | H : (_ <=? _) = false |- _ => apply Z.leb_gt in H
    end.

Lemma clear_cmd_is_not_play_cmd : clear_cmd <> play_cmd.
Proof. discriminate. Qed.

Section DownloadAndPlay.

Context {Composition SCSerial : Type}.
Context `{!Collaborators Composition SCSerial}.
Implicit Types (w : MainWindow Composition SCSerial).

Abbreviation play := (@on_playJinglePushButton_clicked Composition SCSerial _).

(** Every call follows one of the paths, leaves the Compositions alone,
    and returns unless it read through a dangling pointer. *)
Lemma play_follows_a_path w :
  play_path w (trace play w)
  /\ compositions (after play w) = compositions w
  /\ jingleListWidget (after play w) = jingleListWidget w
  /\ ((exists c, selected w c) \/ size w = 0 -> exists w', run play w = Returns tt w').
Proof.
  unfold trace, after. remember (run play w) as o eqn:Ho.
  unfold run, on_playJinglePushButton_clicked, getSelectedComposition,
    open, send, call_download, deref in Ho.
  run_handler; bool_to_Prop; subst;
    (split; [|repeat split; try done; try (by intros _; eauto)]).
  all: try (destruct 1 as [[c Hc]|Hs]; unfold selected in *; [congruence|lia]).
  all: try solve [econstructor; unfold selected, size; first [done | lia | eauto]].
Qed.

(** C1.  When the clear command fails, the handler reports it and
    returns: the run consists of opening the port, the failed clear
    command and the error message, with no payload write and no play
    command, no retry, and the Compositions are as before. *)
Theorem clear_failure_short_circuits w err :
  In (SerialSend clear_cmd clear_resp err) (trace play w) ->
  err <> 0 ->
  trace play w
  = [SerialOpen (serialPortComboBox w) SCSerial_NO_ERROR;
     SerialSend clear_cmd clear_resp err;
     Information "Error" "Failed to clear Jingle Data." []]
  /\ (forall c idx e, ~ In (Download c idx e) (trace play w))
  /\ (forall e, ~ In (SerialSend play_cmd play_resp e) (trace play w))
  /\ compositions (after play w) = compositions w
  /\ (exists w', run play w = Returns tt w').
Proof.
  intros Hin Herr.
  destruct (play_follows_a_path w) as (Hpath & Hcs & _ & Hret).
  remember (trace play w) as tr eqn:Htr.
  destruct Hpath; cbn in Hin; destruct_or?; simplify_eq; try done;
    try (exfalso; by apply clear_cmd_is_not_play_cmd).
  split; [done|]. split; [|split; [|split; [done|eauto]]].
  - intros c' idx e Hd. cbn in Hd. destruct_or?; by simplify_eq.
  - intros e Hp. cbn in Hp. destruct_or?; by simplify_eq.
Qed.


(** The check is on the selected Composition and nothing else: when it
    fits and the port opens, the clear command goes out, whatever the other
    members of the vector need. *)
Lemma clear_sent_when_selected_fits w c :
  selected w c ->
  0 <= jingleListWidget_currentRow w <= Int.to_int (size w) ->
  (serial_open (serialPortComboBox w) (port w)).1 = SCSerial_NO_ERROR ->
  Int.to_uint32 (EEPROM_HDR_NUM_BYTES + getMemUsage c) <= MAX_EEPROM_BYTES ->
  exists err, In (SerialSend clear_cmd clear_resp err) (trace play w).
Proof.
  intros Hsel Hrow Hopen Hfits. unfold trace, after.
  remember (run play w) as o eqn:Ho.
  unfold run, on_playJinglePushButton_clicked, getSelectedComposition,
    open, send, call_download, deref in Ho.
  unfold selected in Hsel. apply lookup_lt_Some in Hsel as Hlt.
  run_handler; bool_to_Prop; simplify_eq/=; try lia; eauto 10.
Qed.

(** Once the port is open and the selected Composition fits, the clear
    command is what the handler sends first, with the port's answer as
    its result. *)
Lemma clear_command_goes_out w c p1 :
  selected w c ->
  0 <= jingleListWidget_currentRow w <= Int.to_int (size w) ->
  serial_open (serialPortComboBox w) (port w) = (SCSerial_NO_ERROR, p1) ->
  Int.to_uint32 (EEPROM_HDR_NUM_BYTES + getMemUsage c) <= MAX_EEPROM_BYTES ->
  take 2 (trace play w)
  = [SerialOpen (serialPortComboBox w) SCSerial_NO_ERROR;
     SerialSend clear_cmd clear_resp (serial_send p1 clear_cmd clear_resp).1].
Proof.
  intros Hsel Hrow Hopen Hfits. unfold trace, after.
  remember (run play w) as o eqn:Ho.
  unfold run, on_playJinglePushButton_clicked, getSelectedComposition,
    open, send, call_download, deref in Ho.
  unfold selected in Hsel. apply lookup_lt_Some in Hsel as Hlt.
  run_handler; bool_to_Prop; simplify_eq/=; try lia; try congruence.
  all: repeat match goal with
         | H1 : ?call = (_, ?p), H2 : ?call = (_, ?q) |- _ =>
             tryif constr_eq p q then fail
             else (assert (p = q) by congruence; subst; clear H2)
         end.
  all: repeat match goal with
         | H : serial_send _ _ _ = _ |- _ => rewrite H
         end; done.
Qed.

(** After a clear command and a payload write that both succeeded, the
    play command goes out, on the port as the write left it. *)
Lemma play_command_goes_out w c p1 p2 p3 :
  selected w c ->
  0 <= jingleListWidget_currentRow w <= Int.to_int (size w) ->
  serial_open (serialPortComboBox w) (port w) = (SCSerial_NO_ERROR, p1) ->
  Int.to_uint32 (EEPROM_HDR_NUM_BYTES + getMemUsage c) <= MAX_EEPROM_BYTES ->
  serial_send p1 clear_cmd clear_resp = (0, p2) ->
  download c p2 0 = (Composition_NO_ERROR, p3) ->
  take 4 (trace play w)
  = [SerialOpen (serialPortComboBox w) SCSerial_NO_ERROR;
     SerialSend clear_cmd clear_resp 0;
     Download c 0 Composition_NO_ERROR;
     SerialSend play_cmd play_resp (serial_send p3 play_cmd play_resp).1].
Proof.
  intros Hsel Hrow Hopen Hfits Hclear Hload. unfold trace, after.
  remember (run play w) as o eqn:Ho.
  unfold run, on_playJinglePushButton_clicked, getSelectedComposition,
    open, send, call_download, deref in Ho.
  unfold selected in Hsel. apply lookup_lt_Some in Hsel as Hlt.
  run_handler; bool_to_Prop; simplify_eq/=; try lia; try congruence.
  all: repeat match goal with
         | H1 : ?call = (_, ?p), H2 : ?call = (_, ?q) |- _ =>
             tryif constr_eq p q then fail
             else (assert (p = q) by congruence; subst; clear H2)
         end.
  all: repeat match goal with
         | H : serial_send _ _ _ = _ |- _ => rewrite H
         end; done.
Qed.

(** C3.  The commands on the wire are those of the protocol table.  Every
    command sent is a row of the table together with its expected
    response; the payload always goes to Jingle index 0; a play command
    is the fourth step of a run whose clear command and payload write
    succeeded.  And the commands are sent: once the port is open and the
    selected Composition fits, the clear command goes out first, and after
    a successful clear and a successful write the play command goes out
    next. *)
Theorem wire_commands_follow_protocol_table w :
  protocol_table = [(clear_cmd, clear_resp); (play_cmd, play_resp)]
  /\ (forall cmd resp e,
       In (SerialSend cmd resp e) (trace play w) -> In (cmd, resp) protocol_table)
  /\ (forall c idx e,
       In (Download c idx e) (trace play w) -> idx = 0 /\ selected w c)
  /\ (forall e,
       In (SerialSend play_cmd play_resp e) (trace play w) ->
       exists c,
         selected w c
         /\ take 4 (trace play w)
            = [SerialOpen (serialPortComboBox w) SCSerial_NO_ERROR;
               SerialSend clear_cmd clear_resp 0;
               Download c 0 Composition_NO_ERROR;
               SerialSend play_cmd play_resp e])
  /\ (forall c p1,
       selected w c ->
       0 <= jingleListWidget_currentRow w <= Int.to_int (size w) ->
       serial_open (serialPortComboBox w) (port w) = (SCSerial_NO_ERROR, p1) ->
       Int.to_uint32 (EEPROM_HDR_NUM_BYTES + getMemUsage c) <= MAX_EEPROM_BYTES ->
       take 2 (trace play w)
       = [SerialOpen (serialPortComboBox w) SCSerial_NO_ERROR;
          SerialSend clear_cmd clear_resp (serial_send p1 clear_cmd clear_resp).1]
       /\ forall p2 p3,
            serial_send p1 clear_cmd clear_resp = (0, p2) ->
            download c p2 0 = (Composition_NO_ERROR, p3) ->
            take 4 (trace play w)
            = [SerialOpen (serialPortComboBox w) SCSerial_NO_ERROR;
               SerialSend clear_cmd clear_resp 0;
               Download c 0 Composition_NO_ERROR;
               SerialSend play_cmd play_resp
                 (serial_send p3 play_cmd play_resp).1]).
Proof.
  destruct (play_follows_a_path w) as (Hpath & _).
  split; [reflexivity|].
  split; [|split; [|split]].
  - remember (trace play w) as tr eqn:Htr. intros cmd resp e He.
    destruct Hpath; cbn in He; destruct_or?; simplify_eq; cbn; auto.
  - remember (trace play w) as tr eqn:Htr. intros c' idx e He.
    destruct Hpath; cbn in He; destruct_or?; by simplify_eq.
  - remember (trace play w) as tr eqn:Htr. intros e He.
    destruct Hpath; cbn in He; destruct_or?; simplify_eq;
      try (exfalso; by apply clear_cmd_is_not_play_cmd); eauto.
  - intros c p1 Hsel Hrow Hopen Hfits. split.
    + by apply (clear_command_goes_out w c p1).
    + intros p2 p3 Hclear Hload. by apply (play_command_goes_out w c p1 p2 p3).
Qed.

End DownloadAndPlay.

(** ** The selected Composition *)

Section Selection.

Context {Composition SCSerial : Type}.
Context `{!Collaborators Composition SCSerial}.
Implicit Types (w : MainWindow Composition SCSerial).

Abbreviation select := (@getSelectedComposition Composition SCSerial).


(** Negative rows and rows beyond the size give [nullptr] and a message. *)
Lemma getSelectedComposition_out_of_range w :
  jingleListWidget_currentRow w < 0 \/ size w < jingleListWidget_currentRow w ->
  size w <= Int.INT_MAX ->
  exists w',
    run select w = Returns nullptr w'
    /\ log w' = [Information "Error" "Invalid Composition selected" []].
Proof.
  intros Hrow Hsize. unfold run, getSelectedComposition.
  unfold_monad. cbn.
  rewrite to_int_small by (unfold Int.INT_MAX in *; lia).
  destruct (Z.gtb_spec (jingleListWidget_currentRow w)
              (Z.of_nat (length (compositions w))));
    destruct (Z.ltb_spec (jingleListWidget_currentRow w) 0);
    cbn; eauto; lia.
Qed.

(** The guard at the boundary.  For a row equal to [compositions.size()]
    the test [comp_idx > size] does not fire: no message, and the result
    is the address one past the last Composition, which no read may use.
    The list widget never reports that row while it has one item per
    Composition. *)
Lemma getSelectedComposition_accepts_row_at_size w :
  jingleListWidget_currentRow w = size w ->
  size w <= Int.INT_MAX ->
  run select w = Returns (slot (length (compositions w))) (set_log [] w)
  /\ trace select w = []
  /\ compositions w !! length (compositions w) = None
  /\ deref (slot (length (compositions w))) w = Raises undefined_behaviour w.
Proof.
  intros Hrow Hsize.
  assert (compositions w !! length (compositions w) = None) as Hnone
    by (by apply lookup_ge_None).
  assert (run select w = Returns (slot (length (compositions w))) (set_log [] w))
    as Hrun.
  { unfold run, getSelectedComposition. unfold_monad. cbn.
    rewrite Hrow. unfold size.
    rewrite to_int_small by (unfold size, Int.INT_MAX in *; lia).
    rewrite Z.gtb_ltb, Z.ltb_irrefl.
    destruct (Z.ltb_spec (Z.of_nat (length (compositions w))) 0); [lia|].
    cbn. rewrite index_small by (unfold size in *; lia).
    by rewrite Nat2Z.id. }
  unfold trace, after. rewrite Hrun. repeat split; try done.
  unfold deref. unfold_monad. by rewrite Hnone.
Qed.

End Selection.

(** ** Strings *)

Lemma append_nil_l b : EmptyString +:+ b = b.
Proof. reflexivity. Qed.

Lemma append_cons c a b : String c a +:+ b = String c (a +:+ b).
Proof. reflexivity. Qed.

Lemma append_assoc a b c : (a +:+ b) +:+ c = a +:+ (b +:+ c).
Proof.
  induction a as [|x a IH]; [done|]. by rewrite !append_cons, IH.
Qed.

Lemma length_append a b :
  String.length (a +:+ b) = (String.length a + String.length b)%nat.
Proof.
  induction a as [|x a IH]; [done|]. rewrite append_cons. cbn. by rewrite IH.
Qed.

Lemma left_append a b : QStr.left (String.length a) (a +:+ b) = a.
Proof.
  induction a as [|x a IH]; [done|]. rewrite append_cons. cbn. by rewrite IH.
Qed.

Lemma occurs_append c a b :
  QStr.occurs c (a +:+ b) = QStr.occurs c a || QStr.occurs c b.
Proof.
  induction a as [|x a IH]; [done|]. rewrite append_cons. cbn.
  by rewrite IH, orb_assoc.
Qed.

Lemma split_not_nil sep s : QStr.split sep s <> [].
Proof.
  destruct s as [|c r]; cbn; [done|].
  destruct (Ascii.eqb c sep); [done|]. by destruct (QStr.split sep r).
Qed.

(** A string without the separator is its own single piece. *)
Lemma split_without_separator sep s :
  QStr.occurs sep s = false -> QStr.split sep s = [s].
Proof.
  induction s as [|c r IH]; cbn; [done|].
  intros [Hc Hr]%orb_false_iff. by rewrite Hc, IH.
Qed.

(** Splitting at an occurrence of the separator splits the pieces. *)
Lemma split_at_separator sep p r :
  QStr.split sep (p +:+ String sep r) = QStr.split sep p ++ QStr.split sep r.
Proof.
  induction p as [|c p IH].
  - rewrite append_nil_l. cbn. by rewrite Ascii.eqb_refl.
  - rewrite append_cons. cbn. rewrite IH. destruct (Ascii.eqb c sep); [done|].
    pose proof (split_not_nil sep p). by destruct (QStr.split sep p).
Qed.

Lemma last_piece_last pieces :
  last_piece pieces = default EmptyString (last pieces).
Proof. unfold last_piece. by rewrite last_lookup. Qed.

Lemma last_piece_app l l' : l' <> [] -> last_piece (l ++ l') = last_piece l'.
Proof.
  intros Hl'. rewrite !last_piece_last.
  destruct l' as [|x l'' _] using rev_ind; [done|].
  by rewrite app_assoc, !last_snoc.
Qed.

Lemma last_piece_cons x l : l <> [] -> last_piece (x :: l) = last_piece l.
Proof. apply (last_piece_app [x]). Qed.

(** Text without the separator, appended to a string, extends the last
    piece and leaves the others. *)
Lemma split_append sep a b :
  QStr.occurs sep b = false ->
  exists pieces piece,
    QStr.split sep a = pieces ++ [piece]
    /\ QStr.split sep (a +:+ b) = pieces ++ [piece +:+ b].
Proof.
  intros Hb. induction a as [|c a (pieces & piece & Ha & Hab)].
  - exists [], EmptyString. split; [done|].
    rewrite !append_nil_l. by apply split_without_separator.
  - rewrite append_cons. cbn. rewrite Ha, Hab.
    destruct (Ascii.eqb c sep).
    + by exists (EmptyString :: pieces), piece.
    + destruct pieces as [|first pieces]; cbn.
      * by exists [], (String c piece).
      * by exists (String c first :: pieces), piece.
Qed.

Lemma last_piece_snoc pieces piece : last_piece (pieces ++ [piece]) = piece.
Proof. by rewrite last_piece_last, last_snoc. Qed.

Lemma last_piece_split_append sep a b :
  QStr.occurs sep b = false ->
  last_piece (QStr.split sep (a +:+ b)) = last_piece (QStr.split sep a) +:+ b.
Proof.
  intros Hb. destruct (split_append sep a b Hb) as (pieces & piece & -> & ->).
  by rewrite !last_piece_snoc.
Qed.

(** The piece after the last separator. *)
Lemma last_piece_split_at_separator sep p r :
  last_piece (QStr.split sep (p +:+ String sep r)) = last_piece (QStr.split sep r).
Proof.
  rewrite split_at_separator. apply last_piece_app, split_not_nil.
Qed.

Lemma resize_drops_suffix stem ext :
  QStr.resize (stem +:+ ext) (QStr.size (stem +:+ ext) - QStr.size ext) = stem.
Proof.
  unfold QStr.resize, QStr.size. rewrite length_append.
  replace (Z.to_nat _) with (String.length stem) by lia.
  apply left_append.
Qed.

(** The label of a file name that ends in .musicxml: what stands between
    the last separator and the extension. *)
Lemma display_label_of_path dir base :
  is_segment base -> is_directory_prefix dir ->
  display_label (dir +:+ base +:+ ".musicxml") = base.
Proof.
  intros [Hslash Hback] Hdir. unfold display_label.
  set (name := base +:+ ".musicxml").
  assert (QStr.occurs "/" name = false) as Hslash'
    by (unfold name; by rewrite occurs_append, Hslash).
  assert (QStr.occurs "\" name = false) as Hback'
    by (unfold name; by rewrite occurs_append, Hback).
  assert (last_piece [name] = name) as Hone by done.
  cut (last_piece (QStr.split "\" (last_piece (QStr.split "/" (dir +:+ name)))) = name).
  { intros ->. apply resize_drops_suffix. }
  destruct Hdir as [->|[d [->| ->]]].
  - rewrite append_nil_l.
    by rewrite (split_without_separator "/"), Hone, split_without_separator.
  - rewrite append_assoc. change ("/" +:+ name) with (String "/" name).
    rewrite last_piece_split_at_separator.
    by rewrite (split_without_separator "/"), Hone, split_without_separator.
  - rewrite append_assoc. change ("\" +:+ name) with (String "\" name).
    rewrite last_piece_split_append by (cbn; by rewrite Hslash').
    rewrite last_piece_split_at_separator.
    by rewrite split_without_separator.
Qed.

(** Every string is some leading path components followed by a name. *)
Lemma path_decomposition stem :
  exists dir base,
    stem = dir +:+ base /\ is_segment base /\ is_directory_prefix dir.
Proof.
  induction stem as [|c stem (dir & base & -> & [Hslash Hback] & Hdir)].
  - exists EmptyString, EmptyString. repeat split; by left.
  - destruct Hdir as [->|[d Hd]].
    + rewrite append_nil_l.
      destruct (Ascii.eqb_spec c "/") as [->|Hc1];
        [|destruct (Ascii.eqb_spec c "\") as [->|Hc2]].
      * exists "/"%string, base. repeat split; try done.
        right. exists EmptyString. by left.
      * exists "\"%string, base. repeat split; try done.
        right. exists EmptyString. by right.
      * exists EmptyString, (String c base). repeat split; try by left.
        -- cbn. apply Ascii.eqb_neq in Hc1. by rewrite Hc1.
        -- cbn. apply Ascii.eqb_neq in Hc2. by rewrite Hc2.
    + exists (String c dir), base. repeat split; try done.
      right. exists (String c d). destruct Hd as [->| ->]; [by left|by right].
Qed.

(** ** Convert *)

Section Convert.

Context {Composition SCSerial : Type}.
Context `{!Collaborators Composition SCSerial}.
Implicit Types (w : MainWindow Composition SCSerial) (cs : list Composition).

Abbreviation convert := (@on_convertPushButton_clicked Composition SCSerial _).

Lemma insert_last_snoc cs (c c' : Composition) :
  <[Nat.pred (length (cs ++ [c])) := c']> (cs ++ [c]) = cs ++ [c'].
Proof.
  rewrite length_app. cbn [length].
  replace (Nat.pred (length cs + 1)) with (length cs + 0)%nat by lia.
  by rewrite insert_app_r.
Qed.

Lemma parse_back_snoc w cs c :
  compositions w = cs ++ [c] ->
  parse_back w
  = Returns (parse c).1 (set_compositions (cs ++ [(parse c).2]) w).
Proof.
  intros Hcs. unfold parse_back. unfold_monad.
  rewrite Hcs, last_snoc. destruct (parse c) as [err parsed].
  by rewrite insert_last_snoc.
Qed.

Lemma pop_back_snoc w cs c :
  compositions w = cs ++ [c] ->
  pop_back w = Returns tt (set_compositions cs w).
Proof.
  intros Hcs. unfold pop_back. unfold_monad. rewrite Hcs.
  rewrite removelast_last. by destruct cs.
Qed.

Lemma convert_unfold w :
  convert w
  = if size w >? MAX_NUM_COMPS then
      information ("Too many Compositions have been added. "
                   +:+ "Please delete before attemping to add another.") [] w
    else
      let '(err, parsed) := parse (Composition_new (musicXmlPathLineEdit w)) in
      if negb (Composition_NO_ERROR =? err) then
        information ("Failed to parse file '%1'." +:+ QStr.LF +:+ "Error: %2")
          [ArgStr (musicXmlPathLineEdit w); ArgCompositionError err] w
      else
        (updateCompositionDisplay ;;; updateMemUsage) (listed w parsed).
Proof.
  unfold on_convertPushButton_clicked.
  unfold bind at 1. unfold get at 1.
  destruct (size w >? MAX_NUM_COMPS); [done|].
  unfold bind at 1. unfold push_back at 1. unfold modify at 1.
  unfold bind at 1.
  rewrite (parse_back_snoc _ (compositions w)
             (Composition_new (musicXmlPathLineEdit w))) by done.
  destruct (parse (Composition_new (musicXmlPathLineEdit w))) as [err parsed].
  cbn [fst snd].
  destruct (negb (Composition_NO_ERROR =? err)).
  - unfold bind at 1. unfold information, emit, modify. 
    rewrite (pop_back_snoc _ (compositions w) parsed) by done.
    by destruct w.
  - done.
Qed.

Lemma refresh_keeps_lists w :
  let w' := final ((updateCompositionDisplay ;;; updateMemUsage) w) in
  compositions w' = compositions w
  /\ jingleListWidget w' = jingleListWidget w
  /\ jingleListWidget_currentRow w' = jingleListWidget_currentRow w.
Proof.
  cbv zeta.
  remember ((updateCompositionDisplay ;;; updateMemUsage) w) as o eqn:Ho.
  unfold updateCompositionDisplay, updateMemUsage, getSelectedComposition,
    deref in Ho.
  by run_handler.
Qed.

Lemma convert_adds w :
  size w <= MAX_NUM_COMPS ->
  (parse (Composition_new (musicXmlPathLineEdit w))).1 = Composition_NO_ERROR ->
  compositions (after convert w)
  = compositions w ++ [(parse (Composition_new (musicXmlPathLineEdit w))).2]
  /\ jingleListWidget (after convert w)
     = jingleListWidget w ++ [display_label (musicXmlPathLineEdit w)].
Proof.
  intros Hsize Hparse. unfold after, run. rewrite convert_unfold.
  destruct (Z.gtb_spec (size (set_log [] w)) MAX_NUM_COMPS) as [Hfull|_];
    [unfold size in *; cbn in Hfull; lia|].
  cbn [musicXmlPathLineEdit set_log].
  destruct (parse (Composition_new (musicXmlPathLineEdit w))) as [err parsed].
  cbn [fst snd] in *. subst err. rewrite Z.eqb_refl. cbn [negb].
  destruct (refresh_keeps_lists (listed (set_log [] w) parsed)) as (-> & -> & _).
  done.
Qed.

(** C4.  When [parse()] fails the Composition that was appended for it is
    removed again: the vector and the list widget are as before, and the
    one thing the call leaves is the error message. *)
Theorem failed_parse_leaves_compositions_unchanged w :
  (parse (Composition_new (musicXmlPathLineEdit w))).1 <> Composition_NO_ERROR ->
  compositions (after convert w) = compositions w
  /\ jingleListWidget (after convert w) = jingleListWidget w
  /\ (exists text args, trace convert w = [Information "Error" text args])
  /\ (exists w', run convert w = Returns tt w').
Proof.
  intros Hparse. unfold trace, after, run. rewrite convert_unfold.
  destruct (size (set_log [] w) >? MAX_NUM_COMPS).
  { cbn. eauto 10. }
  cbn [musicXmlPathLineEdit set_log].
  destruct (parse (Composition_new (musicXmlPathLineEdit w))) as [err parsed].
  cbn [fst snd] in *.
  destruct (Z.eqb_spec Composition_NO_ERROR err) as [<-|_]; [done|].
  cbn. eauto 10.
Qed.

(** C6, at the limit.  A window that already holds [MAX_NUM_COMPS]
    Compositions still accepts a file that parses: the guard refuses only
    beyond the limit, and the vector ends up one over it. *)
Theorem convert_accepts_at_MAX_NUM_COMPS w :
  size w = MAX_NUM_COMPS ->
  (parse (Composition_new (musicXmlPathLineEdit w))).1 = Composition_NO_ERROR ->
  compositions (after convert w)
  = compositions w ++ [(parse (Composition_new (musicXmlPathLineEdit w))).2]
  /\ size (after convert w) = MAX_NUM_COMPS + 1.
Proof.
  intros Hsize Hparse.
  destruct (convert_adds w) as [Hcs _]; [lia|done|].
  split; [done|]. unfold size in *. rewrite Hcs, length_app. cbn. lia.
Qed.

(** Beyond the limit the handler refuses, so one over is as far as it
    goes. *)
Lemma convert_keeps_size_bounded w :
  size w <= MAX_NUM_COMPS + 1 -> size (after convert w) <= MAX_NUM_COMPS + 1.
Proof.
  intros Hsize. unfold after, run. rewrite convert_unfold.
  destruct (Z.gtb_spec (size (set_log [] w)) MAX_NUM_COMPS) as [Hfull|Hroom].
  { done. }
  cbn [musicXmlPathLineEdit set_log].
  destruct (parse (Composition_new (musicXmlPathLineEdit w))) as [err parsed].
  destruct (negb (Composition_NO_ERROR =? err)); [done|].
  destruct (refresh_keeps_lists (listed (set_log [] w) parsed)) as (Hcs & _).
  unfold size in *. rewrite Hcs. cbn in *. rewrite length_app. cbn. lia.
Qed.

(** C8.  For a file name that ends in .musicxml, the label added to the
    list widget is the name with its leading path components, separated
    by / or \, and the extension removed. *)
Theorem display_label_strips_path_and_extension w stem :
  musicXmlPathLineEdit w = stem +:+ ".musicxml" ->
  size w <= MAX_NUM_COMPS ->
  (parse (Composition_new (musicXmlPathLineEdit w))).1 = Composition_NO_ERROR ->
  exists dir base,
    stem = dir +:+ base
    /\ is_segment base
    /\ is_directory_prefix dir
    /\ display_label (musicXmlPathLineEdit w) = base
    /\ jingleListWidget (after convert w) = jingleListWidget w ++ [base].
Proof.
  intros Hname Hsize Hparse.
  destruct (path_decomposition stem) as (dir & base & -> & Hbase & Hdir).
  destruct (convert_adds w Hsize Hparse) as [_ Hitems].
  exists dir, base. rewrite Hitems, Hname, append_assoc.
  by rewrite display_label_of_path.
Qed.

End Convert.

(** ** Reordering *)

Lemma swap_in_place {A} (l1 l2 : list A) a b :
  <[S (length l1) := a]> (<[length l1 := b]> (l1 ++ a :: b :: l2))
  = l1 ++ b :: a :: l2.
Proof.
  replace (length l1) with (length l1 + 0)%nat at 2 by lia.
  rewrite insert_app_r. cbn.
  replace (S (length l1)) with (length l1 + 1)%nat by lia.
  by rewrite insert_app_r.
Qed.

Lemma split_at_neighbours {A} (cs : list A) i a b :
  cs !! i = Some a -> cs !! S i = Some b ->
  exists l1 l2, cs = l1 ++ a :: b :: l2 /\ length l1 = i.
Proof.
  intros Ha Hb. exists (take i cs), (drop (S (S i)) cs). split.
  - rewrite <- (drop_S cs b (S i)) by done.
    by rewrite take_drop_middle.
  - rewrite length_take. apply lookup_lt_Some in Ha. lia.
Qed.

Lemma insert_insert_adjacent_swap {A} (cs : list A) i a b :
  cs !! i = Some a -> cs !! S i = Some b ->
  adjacent_swap i cs (<[S i := a]> (<[i := b]> cs)).
Proof.
  intros Ha Hb.
  pose proof (lookup_lt_Some _ _ _ Ha) as Hi.
  pose proof (lookup_lt_Some _ _ _ Hb) as HSi.
  unfold adjacent_swap. split; [|split; [|split; [|split]]].
  - rewrite list_lookup_insert_ne by lia.
    rewrite list_lookup_insert_eq by lia. done.
  - rewrite list_lookup_insert_eq by (rewrite length_insert; lia). done.
  - intros j Hj HSj. by rewrite !list_lookup_insert_ne by lia.
  - by rewrite !length_insert.
  - destruct (split_at_neighbours cs i a b Ha Hb) as (l1 & l2 & -> & <-).
    rewrite swap_in_place. apply Permutation_app_head, perm_swap.
Qed.

Section Reorder.

Context {Composition SCSerial : Type}.
Context `{!Collaborators Composition SCSerial}.
Implicit Types (w : MainWindow Composition SCSerial) (cs : list Composition).

Abbreviation down := (@on_mvJingleDownToolButton_clicked Composition SCSerial).
Abbreviation up := (@on_mvJingleUpToolButton_clicked Composition SCSerial).

Lemma down_swaps w i a b :
  jingleListWidget_currentRow w = Z.of_nat i ->
  compositions w !! i = Some a ->
  compositions w !! S i = Some b ->
  size w <= Int.INT_MAX ->
  exists w',
    run down w = Returns tt w'
    /\ compositions w' = <[S i := a]> (<[i := b]> (compositions w)).
Proof.
  intros Hrow Ha Hb Hsize.
  pose proof (lookup_lt_Some _ _ _ Hb) as HSi.
  unfold size, Int.INT_MAX in Hsize.
  remember (run down w) as o eqn:Ho.
  unfold run, on_mvJingleDownToolButton_clicked, getSelectedComposition,
    move_item, vec_at, vec_index, vec_assign in Ho.
  destruct w as [cs items row path portname bar text serial events].
  cbn in Hrow, Ha, Hb, Hsize, HSi. subst row.
  assert (Int.to_int (Z.of_nat (length cs)) = Z.of_nat (length cs)) as E1
    by (apply to_int_small; unfold Int.INT_MAX; lia).
  assert (Int.to_int (Z.of_nat i + 1) = Z.of_nat i + 1) as E2
    by (apply to_int_small; unfold Int.INT_MAX; lia).
  assert (Int.to_uint32 (Z.of_nat i) = Z.of_nat i) as E3
    by (apply to_uint32_small; unfold Int.is_uint32, Int.UINT32_MOD; lia).
  assert (Int.to_uint32 (Z.of_nat i + 1) = Z.of_nat i + 1) as E4
    by (apply to_uint32_small; unfold Int.is_uint32, Int.UINT32_MOD; lia).
  assert (Z.to_nat (Z.of_nat i + 1) = S i) as E5 by lia.
  run_handler; rewrite ?E3, ?E4, ?E5, ?Nat2Z.id, ?length_insert in *;
    bool_to_Prop; simplify_eq; try lia.
  all: by eexists.
Qed.

Lemma up_swaps w i a b :
  jingleListWidget_currentRow w = Z.of_nat i + 1 ->
  compositions w !! i = Some a ->
  compositions w !! S i = Some b ->
  size w <= Int.INT_MAX ->
  exists w',
    run up w = Returns tt w'
    /\ compositions w' = <[i := b]> (<[S i := a]> (compositions w)).
Proof.
  intros Hrow Ha Hb Hsize.
  pose proof (lookup_lt_Some _ _ _ Hb) as HSi.
  unfold size, Int.INT_MAX in Hsize.
  remember (run up w) as o eqn:Ho.
  unfold run, on_mvJingleUpToolButton_clicked, getSelectedComposition,
    move_item, vec_at, vec_index, vec_assign in Ho.
  destruct w as [cs items row path portname bar text serial events].
  cbn in Hrow, Ha, Hb, Hsize, HSi. subst row.
  assert (Int.to_int (Z.of_nat (length cs)) = Z.of_nat (length cs)) as E1
    by (apply to_int_small; unfold Int.INT_MAX; lia).
  assert (Int.to_uint32 (Z.of_nat i + 1) = Z.of_nat i + 1) as E2
    by (apply to_uint32_small; unfold Int.is_uint32, Int.UINT32_MOD; lia).
  assert (Int.to_uint32 (Z.of_nat i + 1 - 1) = Z.of_nat i) as E3
    by (rewrite to_uint32_small; unfold Int.is_uint32, Int.UINT32_MOD; lia).
  assert (Z.to_nat (Z.of_nat i + 1) = S i) as E4 by lia.
  run_handler; rewrite ?E2, ?E3, ?E4, ?Nat2Z.id, ?length_insert in *;
    bool_to_Prop; simplify_eq; try lia.
  all: by eexists.
Qed.

(** At the first row the move-up handler returns at once, and so does
    the move-down handler at the last row: no message, nothing changed. *)
Lemma up_at_first_row w :
  jingleListWidget_currentRow w = 0 ->
  size w <= Int.INT_MAX ->
  run up w = Returns tt (set_log [] w).
Proof.
  intros Hrow Hsize.
  unfold run, on_mvJingleUpToolButton_clicked, getSelectedComposition.
  destruct w as [cs items row path portname bar text serial events].
  unfold size, Int.INT_MAX in *. cbn in Hrow, Hsize. subst row.
  assert (Int.to_int (Z.of_nat (length cs)) = Z.of_nat (length cs)) as E1
    by (apply to_int_small; unfold Int.INT_MAX; lia).
  run_handler; bool_to_Prop; lia.
Qed.

Lemma down_at_last_row w :
  0 <= jingleListWidget_currentRow w ->
  jingleListWidget_currentRow w = size w - 1 ->
  size w <= Int.INT_MAX ->
  run down w = Returns tt (set_log [] w).
Proof.
  intros Hrow0 Hrow Hsize.
  unfold run, on_mvJingleDownToolButton_clicked, getSelectedComposition.
  destruct w as [cs items row path portname bar text serial events].
  unfold size, Int.INT_MAX in *. cbn in Hrow0, Hrow, Hsize. subst row.
  assert (Int.to_int (Z.of_nat (length cs)) = Z.of_nat (length cs)) as E1
    by (apply to_int_small; unfold Int.INT_MAX; lia).
  run_handler; bool_to_Prop;
    replace (Z.of_nat (length cs) - 1 + 1) with (Z.of_nat (length cs)) in * by lia;
    lia.
Qed.

(** C5.  Moving up from the first row and moving down from the last row
    are no-ops: the handler returns normally with no message and the
    window, the vector with it, is as it was.  From any other row, moving
    up exchanges the Composition with the one before it and moving down
    with the one after it: the two slots trade values, all other slots
    keep theirs, and the vector is a permutation of what it was. *)
Theorem move_up_down_swap_adjacent w :
  let cs := compositions w in
  let row := jingleListWidget_currentRow w in
  size w <= Int.INT_MAX ->
  (row = 0 ->
   run up w = Returns tt (set_log [] w) /\ compositions (after up w) = cs)
  /\ (row = size w - 1 ->
      compositions (after down w) = cs
      /\ (0 <= row -> run down w = Returns tt (set_log [] w)))
  /\ (0 < row < size w ->
      adjacent_swap (Z.to_nat row - 1) cs (compositions (after up w))
      /\ exists w', run up w = Returns tt w')
  /\ (0 <= row < size w - 1 ->
      adjacent_swap (Z.to_nat row) cs (compositions (after down w))
      /\ exists w', run down w = Returns tt w').
Proof.
  intros cs row Hsize. split; [|split; [|split]].
  - intros Hrow. unfold after. by rewrite up_at_first_row.
  - intros Hrow. split.
    + subst cs row. unfold after.
      remember (run down w) as o eqn:Ho.
      unfold run, on_mvJingleDownToolButton_clicked, getSelectedComposition in Ho.
      destruct w as [cs items row path portname bar text serial events].
      unfold size in Hrow. cbn in Hrow. subst row.
      run_handler; bool_to_Prop;
        replace (Z.of_nat (length cs) - 1 + 1) with (Z.of_nat (length cs)) in * by lia;
        lia.
    + intros Hrow0. by apply down_at_last_row.
  - intros Hrow. unfold size in Hrow. fold cs in Hrow.
    destruct (Z.to_nat row) as [|i] eqn:Hi; [lia|].
    replace (S i - 1)%nat with i by lia.
    destruct (lookup_lt_is_Some_2 cs i) as [a Ha]; [lia|].
    destruct (lookup_lt_is_Some_2 cs (S i)) as [b Hb]; [lia|].
    destruct (up_swaps w i a b) as (w' & Hrun & Hcs); try done.
    { fold row. lia. }
    unfold after. rewrite Hrun. split; [|by eauto]. cbn. rewrite Hcs.
    rewrite list_insert_insert_ne by lia.
    by apply insert_insert_adjacent_swap.
  - intros Hrow. unfold size in Hrow. fold cs in Hrow.
    destruct (lookup_lt_is_Some_2 cs (Z.to_nat row)) as [a Ha]; [lia|].
    destruct (lookup_lt_is_Some_2 cs (S (Z.to_nat row))) as [b Hb]; [lia|].
    destruct (down_swaps w (Z.to_nat row) a b) as (w' & Hrun & Hcs); try done.
    { fold row. lia. }
    unfold after. rewrite Hrun. split; [|by eauto]. cbn. rewrite Hcs.
    by apply insert_insert_adjacent_swap.
Qed.

End Reorder.

(** ** Scenarios on the bench *)

Section Scenarios.

Import Bench.

(** A controller that answers the clear command with an error line gets
    the clear command and nothing else. *)
Example refused_clear_sends_nothing_more :
  received (port (after on_playJinglePushButton_clicked refused)) = [clear_cmd]
  /\ trace on_playJinglePushButton_clicked refused
     = [SerialOpen "COM3" 0; SerialSend clear_cmd clear_resp 1;
        Information "Error" "Failed to clear Jingle Data." []].
Proof. by vm_compute. Qed.

(** Header 10, capacity 1000, one Composition of 995 bytes: nothing
    reaches the controller. *)
Example one_too_large_sends_nothing :
  received (port (after on_playJinglePushButton_clicked one_too_large)) = []
  /\ compositions (after on_playJinglePushButton_clicked one_too_large)
     = compositions one_too_large.
Proof. by vm_compute. Qed.


Example label_of_mixed_separators :
  display_label "C:\Music\Scores/third.musicxml" = "third"
  /\ display_label "/home/me/a.b/tune.musicxml" = "tune"
  /\ display_label "plain.musicxml" = "plain".
Proof. by vm_compute. Qed.

Lemma clear_failure_short_circuits_witness :
  trace on_playJinglePushButton_clicked refused
  = [SerialOpen "COM3" 0; SerialSend clear_cmd clear_resp 1;
     Information "Error" "Failed to clear Jingle Data." []].
Proof.
  destruct (clear_failure_short_circuits refused 1) as [Htrace _].
  - vm_compute. auto.
  - discriminate.
  - exact Htrace.
Defined.


Lemma wire_commands_follow_protocol_table_witness :
  take 4 (trace on_playJinglePushButton_clicked two_large)
  = [SerialOpen "COM3" 0;
     SerialSend ("jingle clear" +:+ QStr.LF)
       ("jingle clear" +:+ QStr.LF +:+ QStr.CR
        +:+ "Jingle data cleared successfully." +:+ QStr.LF +:+ QStr.CR) 0;
     Download tune 0 0;
     SerialSend ("jingle play 0" +:+ QStr.LF)
       ("jingle play 0" +:+ QStr.LF +:+ QStr.CR
        +:+ "Jingle play started successfully." +:+ QStr.LF +:+ QStr.CR) 0].
Proof.
  destruct (wire_commands_follow_protocol_table two_large) as (_ & _ & _ & _ & Hsent).
  destruct (Hsent tune
              {| script := script obliging; received := []; is_open := true |})
    as [_ Hplay]; [by vm_compute..|].
  apply (Hplay
           {| script := script obliging; received := [clear_cmd]; is_open := true |}
           {| script := script obliging;
              received := [clear_cmd; "<payload>"%string]; is_open := true |});
    by vm_compute.
Defined.

Lemma failed_parse_leaves_compositions_unchanged_witness :
  compositions (after on_convertPushButton_clicked unreadable)
  = compositions unreadable.
Proof.
  destruct (failed_parse_leaves_compositions_unchanged unreadable) as (Hcs & _).
  - discriminate.
  - exact Hcs.
Defined.

Lemma move_up_down_swap_adjacent_witness :
  (adjacent_swap 0 [tune; march; waltz]
     (compositions (after on_mvJingleUpToolButton_clicked three))
   /\ adjacent_swap 1 [tune; march; waltz]
        (compositions (after on_mvJingleDownToolButton_clicked three)))
  /\ run on_mvJingleUpToolButton_clicked two_large = Returns tt two_large
  /\ run on_mvJingleDownToolButton_clicked full = Returns tt full.
Proof.
  pose proof (move_up_down_swap_adjacent three) as Hmove. cbv zeta in Hmove.
  destruct Hmove as (_ & _ & Hup & Hdown); [by vm_compute|].
  pose proof (move_up_down_swap_adjacent two_large) as Hfirst. cbv zeta in Hfirst.
  destruct Hfirst as (Hfirst & _); [by vm_compute|].
  pose proof (move_up_down_swap_adjacent full) as Hlast. cbv zeta in Hlast.
  destruct Hlast as (_ & Hlast & _); [by vm_compute|].
  split; [split|split].
  - apply Hup. by vm_compute.
  - apply Hdown. by vm_compute.
  - apply Hfirst. reflexivity.
  - apply Hlast; by vm_compute.
Defined.

Lemma convert_accepts_at_MAX_NUM_COMPS_witness :
  size (after on_convertPushButton_clicked full) = MAX_NUM_COMPS + 1.
Proof.
  destruct (convert_accepts_at_MAX_NUM_COMPS full) as (_ & Hsize).
  - reflexivity.
  - reflexivity.
  - exact Hsize.
Defined.

Lemma updateMemUsage_total_is_header_plus_sum_witness :
  total_num_bytes [march; tune; waltz] = total_num_bytes [tune; march; waltz]
  /\ total_num_bytes [tune; march; waltz] = 10 + (600 + 600 + 30).
Proof.
  pose proof (updateMemUsage_total_is_header_plus_sum three
      (window [march; tune; waltz] 0 EmptyString obliging)) as Hsum.
  cbv zeta in Hsum. destruct Hsum as (_ & Hfits & Hperm). split.
  - apply Hperm. apply perm_swap.
  - apply Hfits. by vm_compute.
Defined.

Lemma display_label_strips_path_and_extension_witness :
  exists dir base,
    "C:\Music\Scores/third" = dir +:+ base
    /\ is_segment base
    /\ is_directory_prefix dir
    /\ display_label (musicXmlPathLineEdit full) = base
    /\ jingleListWidget (after on_convertPushButton_clicked full)
       = jingleListWidget full ++ [base].
Proof.
  apply (display_label_strips_path_and_extension full "C:\Music\Scores/third").
  - reflexivity.
  - by vm_compute.
  - reflexivity.
Defined.

Example row_at_size_on_the_bench :
  run getSelectedComposition past_the_end = Returns (slot 1) past_the_end
  /\ compositions past_the_end !! 1%nat = None.
Proof.
  destruct (getSelectedComposition_accepts_row_at_size past_the_end)
    as (Hrun & _ & Hnone & _).
  - reflexivity.
  - by vm_compute.
  - split; [exact Hrun | exact Hnone].
Qed.

Lemma updateMemUsage_progress_in_range_witness :
  memUsageProgressBar
    (after updateMemUsage (window [waltz] 0 EmptyString obliging))
  = 100 * 40 / 1000.
Proof.
  pose proof (updateMemUsage_progress_in_range
                (window [waltz] 0 EmptyString obliging)) as Hvalue.
  cbv zeta in Hvalue. destruct Hvalue as (_ & _ & Hbelow).
  destruct Hbelow as (_ & _ & Hfloor).
  - reflexivity.
  - apply Hfloor. by vm_compute.
Defined.

End Scenarios.

(** * The window as a whole

    The buttons together, and what they keep true of the window between
    clicks. *)

Inductive button := PlayJingle | Convert | DelJingle | MvJingleUp | MvJingleDown.

Section Buttons.

Context {Composition SCSerial : Type}.
Context `{!Collaborators Composition SCSerial}.

Definition clicked (b : button) : @M Composition SCSerial unit :=
  match b with
  | PlayJingle => on_playJinglePushButton_clicked
  | Convert => on_convertPushButton_clicked
  | DelJingle => on_delJingleToolButton_clicked
  | MvJingleUp => on_mvJingleUpToolButton_clicked
  | MvJingleDown => on_mvJingleDownToolButton_clicked
  end.

(** The list widget has one item per Composition, and its current row is
    one of them or none (-1). *)
Definition in_step (w : MainWindow Composition SCSerial) : Prop :=
  length (jingleListWidget w) = length (compositions w)
  /\ -1 <= jingleListWidget_currentRow w < size w.

(** The progress bar shows the usage of the Compositions now in the
    vector. *)
Definition gauge_consistent (w : MainWindow Composition SCSerial) : Prop :=
  memUsageProgressBar w = progress_value (total_num_bytes (compositions w)).

(** Everything of the window but the port and the log. *)
Definition same_widgets (w w' : MainWindow Composition SCSerial) : Prop :=
  compositions w' = compositions w
  /\ jingleListWidget w' = jingleListWidget w
  /\ jingleListWidget_currentRow w' = jingleListWidget_currentRow w
  /\ musicXmlPathLineEdit w' = musicXmlPathLineEdit w
  /\ serialPortComboBox w' = serialPortComboBox w
  /\ memUsageProgressBar w' = memUsageProgressBar w
  /\ memUsageCurrBytesLabel w' = memUsageCurrBytesLabel w.

End Buttons.

(** ** More on download and play *)

Section PlayPaths.

Context {Composition SCSerial : Type}.
Context `{!Collaborators Composition SCSerial}.
Implicit Types (w : MainWindow Composition SCSerial).

Abbreviation play := (@on_playJinglePushButton_clicked Composition SCSerial _).

Ltac run_play o Ho :=
  remember (run play _) as o eqn:Ho;
  unfold run, on_playJinglePushButton_clicked, getSelectedComposition,
    open, send, call_download, deref in Ho.


(** X3.  Whatever happens on the wire, the handler changes no widget and not
    the number of Compositions. *)
Theorem play_changes_no_widget w :
  let w' := after play w in
  jingleListWidget w' = jingleListWidget w
  /\ jingleListWidget_currentRow w' = jingleListWidget_currentRow w
  /\ musicXmlPathLineEdit w' = musicXmlPathLineEdit w
  /\ serialPortComboBox w' = serialPortComboBox w
  /\ memUsageProgressBar w' = memUsageProgressBar w
  /\ memUsageCurrBytesLabel w' = memUsageCurrBytesLabel w
  /\ size w' = size w.
Proof.
  cbv zeta. unfold after. run_play o Ho. by run_handler.
Qed.

(** X4.  When the port does not open the handler reports the port's name and
    the error code, and sends nothing. *)
Theorem play_reports_port_that_does_not_open w err p :
  compositions w <> [] ->
  0 <= jingleListWidget_currentRow w <= Int.to_int (size w) ->
  serial_open (serialPortComboBox w) (port w) = (err, p) ->
  err <> SCSerial_NO_ERROR ->
  trace play w
  = [SerialOpen (serialPortComboBox w) err;
     Information "Error"
       ("Cannot open %1." +:+ QStr.LF +:+ QStr.LF +:+ "Error: %2")
       [ArgStr (serialPortComboBox w); ArgSerialError err]]
  /\ port (after play w) = p.
Proof.
  intros Hsome Hrow Hopen Herr. unfold trace, after. run_play o Ho.
  destruct (compositions w) as [|c cs] eqn:Hcs; [done|].
  run_handler; bool_to_Prop; simplify_eq/=; try lia; try done.
  all: rewrite Hcs in *; cbn in *; lia.
Qed.

(** X5.  When the payload write fails the play command is not sent: the run
    ends with the download error. *)
Theorem download_failure_stops_before_play w c idx err :
  In (Download c idx err) (trace play w) ->
  err <> Composition_NO_ERROR ->
  trace play w
  = [SerialOpen (serialPortComboBox w) SCSerial_NO_ERROR;
     SerialSend clear_cmd clear_resp 0;
     Download c 0 err;
     Information "Error"
       ("Cannot download to %1." +:+ QStr.LF +:+ QStr.LF +:+ "Error: %2")
       [ArgStr (serialPortComboBox w); ArgCompositionError err]]
  /\ forall e, ~ In (SerialSend play_cmd play_resp e) (trace play w).
Proof.
  intros Hin Herr.
  destruct (play_follows_a_path w) as (Hpath & _).
  remember (trace play w) as tr eqn:Htr.
  destruct Hpath; cbn in Hin; destruct_or?; simplify_eq; try done.
  split; [done|]. intros e He. cbn in He. destruct_or?; by simplify_eq.
Qed.

(** X6.  A run in which every step succeeds hands the port from step to step:
    open, clear, payload at index 0, play. *)
Theorem play_hands_port_from_step_to_step w c p1 p2 p3 p4 :
  selected w c ->
  0 <= jingleListWidget_currentRow w <= Int.to_int (size w) ->
  serial_open (serialPortComboBox w) (port w) = (SCSerial_NO_ERROR, p1) ->
  Int.to_uint32 (EEPROM_HDR_NUM_BYTES + getMemUsage c) <= MAX_EEPROM_BYTES ->
  serial_send p1 clear_cmd clear_resp = (0, p2) ->
  download c p2 0 = (Composition_NO_ERROR, p3) ->
  serial_send p3 play_cmd play_resp = (0, p4) ->
  trace play w
  = [SerialOpen (serialPortComboBox w) SCSerial_NO_ERROR;
     SerialSend clear_cmd clear_resp 0;
     Download c 0 Composition_NO_ERROR;
     SerialSend play_cmd play_resp 0]
  /\ port (after play w) = p4
  /\ exists w', run play w = Returns tt w'.
Proof.
  intros Hsel Hrow Hopen Hfits Hclear Hload Hplay. unfold trace, after.
  run_play o Ho.
  unfold selected in Hsel. apply lookup_lt_Some in Hsel as Hlt.
  run_handler; bool_to_Prop; simplify_eq/=; try lia; try congruence.
  repeat match goal with
    | H1 : ?call = (_, ?p), H2 : ?call = (_, ?q) |- _ =>
        tryif constr_eq p q then fail
        else (assert (p = q) by congruence; subst; clear H2)
    end.
  eauto.
Qed.

(** X1.  What [getSelectedComposition] makes of every row, for a vector whose
    size fits an [int]: below 0 or above the size it reports and gives
    [nullptr], changing no widget; from 0 up to the size it gives the
    row's slot without a word, and that slot holds a Composition exactly
    when the row is below the size. *)
Theorem selection_by_row w :
  size w <= Int.INT_MAX ->
  let row := jingleListWidget_currentRow w in
  (row < 0 \/ size w < row ->
   exists w',
     run getSelectedComposition w = Returns nullptr w'
     /\ log w' = [Information "Error" "Invalid Composition selected" []]
     /\ same_widgets w w')
  /\ (0 <= row <= size w ->
      run getSelectedComposition w = Returns (slot (Z.to_nat row)) (set_log [] w)
      /\ (is_Some (compositions w !! Z.to_nat row) <-> row < size w)).
Proof.
  intros Hsize. cbv zeta. unfold run, getSelectedComposition, size in *.
  unfold_monad. cbn.
  rewrite to_int_small by (unfold Int.INT_MAX in *; lia).
  split; intros Hrow.
  - unfold same_widgets.
    destruct (Z.gtb_spec (jingleListWidget_currentRow w)
                (Z.of_nat (length (compositions w))));
      destruct (Z.ltb_spec (jingleListWidget_currentRow w) 0);
      cbn; try lia; by eexists.
  - destruct (Z.gtb_spec (jingleListWidget_currentRow w)
                (Z.of_nat (length (compositions w)))); [lia|].
    destruct (Z.ltb_spec (jingleListWidget_currentRow w) 0); [lia|].
    cbn. rewrite index_small by (unfold Int.INT_MAX in *; lia).
    split; [done|]. rewrite lookup_lt_is_Some. lia.
Qed.

End PlayPaths.


(** ** More on convert *)

Section ConvertPaths.

Context {Composition SCSerial : Type}.
Context `{!Collaborators Composition SCSerial}.
Implicit Types (w : MainWindow Composition SCSerial).

Abbreviation convert := (@on_convertPushButton_clicked Composition SCSerial _).


End ConvertPaths.

(** ** The list widget's rows *)

Lemma takeItem_at (items : list string) i x :
  items !! i = Some x ->
  ListWidget.takeItem (Z.of_nat i) items = (Some x, delete i items).
Proof.
  intros Hx. pose proof (lookup_lt_Some _ _ _ Hx) as Hi.
  unfold ListWidget.takeItem, ListWidget.count.
  destruct (Z.leb_spec 0 (Z.of_nat i)); [|lia].
  destruct (Z.ltb_spec (Z.of_nat i) (Z.of_nat (length items))); [|lia].
  cbn. by rewrite Nat2Z.id, Hx.
Qed.

(** Taking row [i] and inserting the item one row further down exchanges
    it with its successor; the widget reports the new row. *)
Lemma take_insert_below (items : list string) i x y :
  items !! i = Some x -> items !! S i = Some y ->
  ListWidget.clamp_row (Z.of_nat i + 1) (delete i items) = Z.of_nat i + 1
  /\ ListWidget.insertItem (Z.of_nat i + 1) (Some x) (delete i items)
     = <[S i := x]> (<[i := y]> items).
Proof.
  intros Hx Hy.
  destruct (split_at_neighbours items i x y Hx Hy) as (l1 & l2 & -> & <-).
  rewrite swap_in_place, delete_middle.
  assert (ListWidget.clamp_row (Z.of_nat (length l1) + 1) (l1 ++ y :: l2)
          = Z.of_nat (length l1) + 1) as Hclamp.
  { unfold ListWidget.clamp_row, ListWidget.count. rewrite length_app. cbn.
    destruct (Z.ltb_spec (Z.of_nat (length l1) + 1) 0); [lia|].
    destruct (Z.gtb_spec (Z.of_nat (length l1) + 1)
                (Z.of_nat (length l1 + S (length l2)))); [lia|done]. }
  split; [done|]. unfold ListWidget.insertItem. rewrite Hclamp.
  replace (Z.to_nat (Z.of_nat (length l1) + 1)) with (length (l1 ++ [y]))
    by (rewrite length_app; cbn; lia).
  change (l1 ++ y :: l2) with (l1 ++ [y] ++ l2). rewrite app_assoc.
  by rewrite take_app_length, drop_app_length, <- app_assoc.
Qed.

(** Taking row [i + 1] and inserting the item one row further up
    exchanges it with its predecessor. *)
Lemma take_insert_above (items : list string) i x y :
  items !! i = Some x -> items !! S i = Some y ->
  ListWidget.clamp_row (Z.of_nat i + 1 - 1) (delete (S i) items) = Z.of_nat i + 1 - 1
  /\ ListWidget.insertItem (Z.of_nat i + 1 - 1) (Some y) (delete (S i) items)
     = <[S i := x]> (<[i := y]> items).
Proof.
  intros Hx Hy.
  destruct (split_at_neighbours items i x y Hx Hy) as (l1 & l2 & -> & <-).
  rewrite swap_in_place.
  change (l1 ++ x :: y :: l2) with (l1 ++ [x] ++ y :: l2). rewrite app_assoc.
  replace (S (length l1)) with (length (l1 ++ [x]))
    by (rewrite length_app; cbn; lia).
  rewrite delete_middle, <- app_assoc. cbn [app].
  assert (ListWidget.clamp_row (Z.of_nat (length l1) + 1 - 1) (l1 ++ x :: l2)
          = Z.of_nat (length l1) + 1 - 1) as Hclamp.
  { unfold ListWidget.clamp_row, ListWidget.count. rewrite length_app. cbn.
    destruct (Z.ltb_spec (Z.of_nat (length l1) + 1 - 1) 0); [lia|].
    destruct (Z.gtb_spec (Z.of_nat (length l1) + 1 - 1)
                (Z.of_nat (length l1 + S (length l2)))); [lia|done]. }
  split; [done|]. unfold ListWidget.insertItem. rewrite Hclamp.
  replace (Z.to_nat (Z.of_nat (length l1) + 1 - 1)) with (length l1) by lia.
  by rewrite take_app_length, drop_app_length.
Qed.

(** Exchanging two neighbours twice gives the list back. *)
Lemma swap_twice {A} (l : list A) i a b :
  l !! i = Some a -> l !! S i = Some b ->
  <[S i := b]> (<[i := a]> (<[S i := a]> (<[i := b]> l))) = l.
Proof.
  intros Ha Hb.
  destruct (split_at_neighbours l i a b Ha Hb) as (l1 & l2 & -> & <-).
  by rewrite !swap_in_place.
Qed.

(** ** Delete and reorder, on the whole window *)

Section Rows.

Context {Composition SCSerial : Type}.
Context `{!Collaborators Composition SCSerial}.
Implicit Types (w : MainWindow Composition SCSerial) (cs : list Composition).

(** The window with its vector, its items and its row replaced. *)
Definition rearranged (w : MainWindow Composition SCSerial)
    (cs : list Composition) (items : list string) (row : Z)
    : MainWindow Composition SCSerial :=
  set_compositions cs (set_jingleListWidget items row (set_log [] w)).

Lemma down_effect w i a b x y :
  jingleListWidget_currentRow w = Z.of_nat i ->
  compositions w !! i = Some a -> compositions w !! S i = Some b ->
  jingleListWidget w !! i = Some x -> jingleListWidget w !! S i = Some y ->
  size w <= Int.INT_MAX ->
  run on_mvJingleDownToolButton_clicked w
  = Returns tt (rearranged w (<[S i := a]> (<[i := b]> (compositions w)))
                  (<[S i := x]> (<[i := y]> (jingleListWidget w)))
                  (Z.of_nat i + 1)).
Proof.
  intros Hrow Ha Hb Hx Hy Hsize.
  pose proof (lookup_lt_Some _ _ _ Hb) as HSi.
  unfold size, Int.INT_MAX in Hsize.
  unfold run, on_mvJingleDownToolButton_clicked, getSelectedComposition,
    move_item, vec_at, vec_index, vec_assign, rearranged.
  destruct w as [cs items row path portname bar text serial events].
  cbn in Hrow, Ha, Hb, Hx, Hy, Hsize, HSi. subst row.
  destruct (take_insert_below items i x y Hx Hy) as [Eclamp Einsert].
  pose proof (takeItem_at items i x Hx) as Etake.
  assert (Int.to_int (Z.of_nat (length cs)) = Z.of_nat (length cs)) as E1
    by (apply to_int_small; unfold Int.INT_MAX; lia).
  assert (Int.to_int (Z.of_nat i + 1) = Z.of_nat i + 1) as E2
    by (apply to_int_small; unfold Int.INT_MAX; lia).
  assert (Int.to_uint32 (Z.of_nat i) = Z.of_nat i) as E3
    by (apply to_uint32_small; unfold Int.is_uint32, Int.UINT32_MOD; lia).
  assert (Int.to_uint32 (Z.of_nat i + 1) = Z.of_nat i + 1) as E4
    by (apply to_uint32_small; unfold Int.is_uint32, Int.UINT32_MOD; lia).
  assert (Z.to_nat (Z.of_nat i + 1) = S i) as E5 by lia.
  unfold ListWidget.insertItem in Einsert.
  run_handler; rewrite ?E3, ?E4, ?E5, ?Nat2Z.id, ?length_insert in *;
    bool_to_Prop; simplify_eq; try lia.
  by rewrite Einsert, Eclamp.
Qed.

Lemma up_effect w i a b x y :
  jingleListWidget_currentRow w = Z.of_nat i + 1 ->
  compositions w !! i = Some a -> compositions w !! S i = Some b ->
  jingleListWidget w !! i = Some x -> jingleListWidget w !! S i = Some y ->
  size w <= Int.INT_MAX ->
  run on_mvJingleUpToolButton_clicked w
  = Returns tt (rearranged w (<[i := b]> (<[S i := a]> (compositions w)))
                  (<[S i := x]> (<[i := y]> (jingleListWidget w)))
                  (Z.of_nat i + 1 - 1)).
Proof.
  intros Hrow Ha Hb Hx Hy Hsize.
  pose proof (lookup_lt_Some _ _ _ Hb) as HSi.
  unfold size, Int.INT_MAX in Hsize.
  unfold run, on_mvJingleUpToolButton_clicked, getSelectedComposition,
    move_item, vec_at, vec_index, vec_assign, rearranged.
  destruct w as [cs items row path portname bar text serial events].
  cbn in Hrow, Ha, Hb, Hx, Hy, Hsize, HSi. subst row.
  destruct (take_insert_above items i x y Hx Hy) as [Eclamp Einsert].
  pose proof (takeItem_at items (S i) y Hy) as Etake.
  replace (Z.of_nat (S i)) with (Z.of_nat i + 1) in Etake by lia.
  assert (Int.to_int (Z.of_nat (length cs)) = Z.of_nat (length cs)) as E1
    by (apply to_int_small; unfold Int.INT_MAX; lia).
  assert (Int.to_uint32 (Z.of_nat i + 1) = Z.of_nat i + 1) as E2
    by (apply to_uint32_small; unfold Int.is_uint32, Int.UINT32_MOD; lia).
  assert (Int.to_uint32 (Z.of_nat i + 1 - 1) = Z.of_nat i) as E3
    by (rewrite to_uint32_small; unfold Int.is_uint32, Int.UINT32_MOD; lia).
  assert (Z.to_nat (Z.of_nat i + 1) = S i) as E4 by lia.
  unfold ListWidget.insertItem in Einsert.
  run_handler; rewrite ?E2, ?E3, ?E4, ?Nat2Z.id, ?length_insert in *;
    bool_to_Prop; simplify_eq; try lia.
  by rewrite Einsert, Eclamp.
Qed.

End Rows.

Section RowsOfAWindowInStep.

Context {Composition SCSerial : Type}.
Context `{!Collaborators Composition SCSerial}.
Implicit Types (w : MainWindow Composition SCSerial) (cs : list Composition).

Lemma delete_effect w i :
  jingleListWidget_currentRow w = Z.of_nat i ->
  (i < length (compositions w))%nat ->
  length (jingleListWidget w) = length (compositions w) ->
  size w <= Int.INT_MAX ->
  run on_delJingleToolButton_clicked w
  = Returns tt
      (set_memUsage
         (progress_value (total_num_bytes (delete i (compositions w))))
         [ArgNum (total_num_bytes (delete i (compositions w))); ArgStr "/";
          ArgNum MAX_EEPROM_BYTES; ArgStr " bytes used"]
         (rearranged w (delete i (compositions w))
            (delete i (jingleListWidget w)) (-1))).
Proof.
  intros Hrow Hi Hlen Hsize. unfold size, Int.INT_MAX in Hsize.
  unfold run, on_delJingleToolButton_clicked, getSelectedComposition,
    updateMemUsage, rearranged.
  destruct w as [cs items row path portname bar text serial events].
  cbn in Hrow, Hi, Hlen, Hsize. subst row.
  destruct (lookup_lt_is_Some_2 items i) as [x Hx]; [lia|].
  pose proof (takeItem_at items i x Hx) as Etake.
  assert (Int.to_int (Z.of_nat (length cs)) = Z.of_nat (length cs)) as E1
    by (apply to_int_small; unfold Int.INT_MAX; lia).
  run_handler; rewrite ?Nat2Z.id in *; bool_to_Prop; simplify_eq; try lia.
  rewrite Etake. done.
Qed.

(** Without a selected row the reordering and delete buttons show the
    message and leave everything as it is. *)
Lemma no_selection_effect b w :
  b = DelJingle \/ b = MvJingleUp \/ b = MvJingleDown ->
  jingleListWidget_currentRow w < 0 \/ size w < jingleListWidget_currentRow w ->
  size w <= Int.INT_MAX ->
  run (clicked b) w
  = Returns tt (set_log [Information "Error" "Invalid Composition selected" []] w).
Proof.
  intros Hb Hrow Hsize. unfold size, Int.INT_MAX in *.
  destruct w as [cs items row path portname bar text serial events].
  cbn in Hrow, Hsize.
  assert (Int.to_int (Z.of_nat (length cs)) = Z.of_nat (length cs)) as E1
    by (apply to_int_small; unfold Int.INT_MAX; lia).
  destruct Hb as [->|[->| ->]]; unfold run, clicked,
    on_delJingleToolButton_clicked, on_mvJingleUpToolButton_clicked,
    on_mvJingleDownToolButton_clicked, getSelectedComposition;
    run_handler; bool_to_Prop; lia.
Qed.

End RowsOfAWindowInStep.

Section ButtonsOnAWindowInStep.

Context {Composition SCSerial : Type}.
Context `{!Collaborators Composition SCSerial}.
Implicit Types (w : MainWindow Composition SCSerial) (cs : list Composition).

(** The window with the gauge set for the vector [cs]. *)
Definition gauged (cs : list Composition) (w : MainWindow Composition SCSerial)
    : MainWindow Composition SCSerial :=
  set_memUsage (progress_value (total_num_bytes cs))
    [ArgNum (total_num_bytes cs); ArgStr "/"; ArgNum MAX_EEPROM_BYTES;
     ArgStr " bytes used"] w.

Lemma convert_success_effect w parsed :
  in_step w ->
  size w <= MAX_NUM_COMPS ->
  size w < Int.INT_MAX ->
  parse (Composition_new (musicXmlPathLineEdit w)) = (Composition_NO_ERROR, parsed) ->
  run on_convertPushButton_clicked w
  = Returns tt
      (gauged (compositions w ++ [parsed])
         (rearranged w (compositions w ++ [parsed])
            (jingleListWidget w ++ [display_label (musicXmlPathLineEdit w)])
            (size w))).
Proof.
  intros [Hlen Hrow] Hroom Hint Hparse.
  unfold run. rewrite convert_unfold.
  destruct (Z.gtb_spec (size (set_log [] w)) MAX_NUM_COMPS) as [Hfull|_];
    [unfold size in *; cbn in Hfull; lia|].
  cbn [musicXmlPathLineEdit set_log]. rewrite Hparse, Z.eqb_refl. cbn [negb].
  unfold listed, updateCompositionDisplay, updateMemUsage,
    getSelectedComposition, deref, ListWidget.count, gauged, rearranged.
  destruct w as [cs items row path portname bar text serial events].
  unfold size, Int.INT_MAX in *. cbn in Hlen, Hrow, Hroom, Hint.
  assert (Z.of_nat (length (items ++ [display_label path])) - 1
          = Z.of_nat (length cs)) as Ecount
    by (rewrite length_app; cbn; lia).
  assert (Int.to_int (Z.of_nat (length (cs ++ [parsed])))
          = Z.of_nat (length cs) + 1) as Esize
    by (rewrite length_app, to_int_small; unfold Int.INT_MAX; cbn; lia).
  assert (Z.to_nat (Int.to_uint32 (Z.of_nat (length cs))) = length cs) as Eidx
    by (rewrite index_small; unfold Int.INT_MAX; lia).
  assert ((cs ++ [parsed]) !! length cs = Some parsed) as Hlast
    by (by rewrite lookup_app_r, Nat.sub_diag).
  run_handler; rewrite ?Ecount, ?Esize in *; rewrite ?Eidx in *;
    bool_to_Prop; simplify_eq; try lia.
  done.
Qed.

Lemma convert_refused_effect w :
  size w > MAX_NUM_COMPS ->
  run on_convertPushButton_clicked w
  = Returns tt
      (set_log [Information "Error"
                  ("Too many Compositions have been added. "
                   +:+ "Please delete before attemping to add another.") []] w).
Proof.
  intros Hfull. unfold run. rewrite convert_unfold.
  destruct (Z.gtb_spec (size (set_log [] w)) MAX_NUM_COMPS) as [_|Hroom].
  - by destruct w.
  - unfold size in *. cbn in Hroom. lia.
Qed.

Lemma convert_failure_effect w err parsed :
  size w <= MAX_NUM_COMPS ->
  parse (Composition_new (musicXmlPathLineEdit w)) = (err, parsed) ->
  err <> Composition_NO_ERROR ->
  run on_convertPushButton_clicked w
  = Returns tt
      (set_log [Information "Error"
                  ("Failed to parse file '%1'." +:+ QStr.LF +:+ "Error: %2")
                  [ArgStr (musicXmlPathLineEdit w); ArgCompositionError err]] w).
Proof.
  intros Hroom Hparse Herr. unfold run. rewrite convert_unfold.
  destruct (Z.gtb_spec (size (set_log [] w)) MAX_NUM_COMPS) as [Hfull|_];
    [unfold size in *; cbn in Hfull; lia|].
  cbn [musicXmlPathLineEdit set_log]. rewrite Hparse.
  destruct (Z.eqb_spec Composition_NO_ERROR err) as [<-|_]; [done|].
  by destruct w.
Qed.

Lemma play_keeps_widgets w :
  same_widgets w (after on_playJinglePushButton_clicked w).
Proof.
  unfold after, same_widgets.
  remember (run on_playJinglePushButton_clicked w) as o eqn:Ho.
  unfold run, on_playJinglePushButton_clicked, getSelectedComposition,
    open, send, call_download, deref in Ho.
  by run_handler.
Qed.

Lemma play_returns_in_step w :
  in_step w -> size w <= Int.INT_MAX ->
  exists w', run on_playJinglePushButton_clicked w = Returns tt w'.
Proof.
  intros [Hlen Hrow] Hsize.
  remember (run on_playJinglePushButton_clicked w) as o eqn:Ho.
  unfold run, on_playJinglePushButton_clicked, getSelectedComposition,
    open, send, call_download, deref in Ho.
  destruct w as [cs items row path portname bar text serial events].
  unfold size, Int.INT_MAX in *. cbn in Hlen, Hrow, Hsize.
  assert (Int.to_int (Z.of_nat (length cs)) = Z.of_nat (length cs)) as E1
    by (apply to_int_small; unfold Int.INT_MAX; lia).
  run_handler; eauto; bool_to_Prop; exfalso.
  all: match goal with
       | H : _ !! _ = None |- _ =>
           apply lookup_ge_None in H; rewrite index_small in H;
           unfold Int.INT_MAX; lia
       end.
Qed.

(** One click on a window in step: the handler returns, and the window it
    leaves is in step again. *)
Lemma click_keeps_in_step b w :
  in_step w ->
  size w < Int.INT_MAX ->
  in_step (after (clicked b) w)
  /\ exists w', run (clicked b) w = Returns tt w'.
Proof.
  intros Hstep Hsize. pose proof Hstep as [Hlen Hrow].
  unfold size in Hrow.
  destruct b; unfold after.
  - cbn [clicked]. destruct (play_keeps_widgets w) as (Hcs & Hitems & Hrow' & _).
    split; [|apply play_returns_in_step; [done|lia]].
    unfold after in *. unfold in_step, size. by rewrite Hcs, Hitems, Hrow'.
  - cbn [clicked].
    destruct (Z_gt_le_dec (size w) MAX_NUM_COMPS) as [Hfull|Hroom].
    { rewrite convert_refused_effect by done. split; [done|by eexists]. }
    destruct (parse (Composition_new (musicXmlPathLineEdit w)))
      as [err parsed] eqn:Hparse.
    destruct (decide (err = Composition_NO_ERROR)) as [->|Herr].
    + rewrite (convert_success_effect w parsed) by done.
      split; [|by eexists]. unfold in_step, size in *. cbn.
      rewrite !length_app. cbn. lia.
    + rewrite (convert_failure_effect w err parsed) by done.
      split; [done|by eexists].
  - destruct (decide (jingleListWidget_currentRow w = -1)) as [Hnone|Hsome].
    { rewrite (no_selection_effect DelJingle) by (auto; lia).
      split; [done|by eexists]. }
    cbn [clicked]. rewrite (delete_effect w (Z.to_nat (jingleListWidget_currentRow w)))
      by lia.
    split; [|by eexists]. unfold in_step, size. cbn.
    rewrite !length_delete by (apply lookup_lt_is_Some_2; lia). lia.
  - destruct (decide (jingleListWidget_currentRow w = -1)) as [Hnone|Hsome].
    { rewrite (no_selection_effect MvJingleUp) by (auto; lia).
      split; [done|by eexists]. }
    cbn [clicked].
    destruct (decide (jingleListWidget_currentRow w = 0)) as [Hfirst|Hlater].
    { rewrite up_at_first_row by (done || lia). split; [done|by eexists]. }
    set (i := (Z.to_nat (jingleListWidget_currentRow w) - 1)%nat).
    destruct (lookup_lt_is_Some_2 (compositions w) i) as [a Ha]; [lia|].
    destruct (lookup_lt_is_Some_2 (compositions w) (S i)) as [c Hc]; [lia|].
    destruct (lookup_lt_is_Some_2 (jingleListWidget w) i) as [x Hx]; [lia|].
    destruct (lookup_lt_is_Some_2 (jingleListWidget w) (S i)) as [y Hy]; [lia|].
    rewrite (up_effect w i a c x y) by (done || lia).
    split; [|by eexists]. unfold in_step, size. cbn.
    rewrite !length_insert. lia.
  - destruct (decide (jingleListWidget_currentRow w = -1)) as [Hnone|Hsome].
    { rewrite (no_selection_effect MvJingleDown) by (auto; lia).
      split; [done|by eexists]. }
    cbn [clicked].
    destruct (decide (jingleListWidget_currentRow w = size w - 1)) as [Hlast|Hearlier].
    { rewrite down_at_last_row by (done || lia). split; [done|by eexists]. }
    unfold size in Hearlier.
    set (i := Z.to_nat (jingleListWidget_currentRow w)).
    destruct (lookup_lt_is_Some_2 (compositions w) i) as [a Ha]; [lia|].
    destruct (lookup_lt_is_Some_2 (compositions w) (S i)) as [c Hc]; [lia|].
    destruct (lookup_lt_is_Some_2 (jingleListWidget w) i) as [x Hx]; [lia|].
    destruct (lookup_lt_is_Some_2 (jingleListWidget w) (S i)) as [y Hy]; [lia|].
    rewrite (down_effect w i a c x y) by (done || lia).
    split; [|by eexists]. unfold in_step, size. cbn.
    rewrite !length_insert. lia.
Qed.

(** X8.  A file that parses, added to a window in step: the parsed Composition
    is appended and selected, its label is the new last item, the gauge
    shows the new total, and nothing is reported. *)
Theorem convert_appends_and_selects w :
  in_step w ->
  size w <= MAX_NUM_COMPS ->
  size w < Int.INT_MAX ->
  (parse (Composition_new (musicXmlPathLineEdit w))).1 = Composition_NO_ERROR ->
  let parsed := (parse (Composition_new (musicXmlPathLineEdit w))).2 in
  let w' := after on_convertPushButton_clicked w in
  compositions w' = compositions w ++ [parsed]
  /\ jingleListWidget w'
     = jingleListWidget w ++ [display_label (musicXmlPathLineEdit w)]
  /\ jingleListWidget_currentRow w' = size w
  /\ selected w' parsed
  /\ gauge_consistent w'
  /\ trace on_convertPushButton_clicked w = [].
Proof.
  intros Hstep Hroom Hint Hparse. cbv zeta.
  destruct (parse (Composition_new (musicXmlPathLineEdit w)))
    as [err parsed] eqn:Hfile.
  cbn [fst snd] in *. subst err.
  unfold trace, after. rewrite (convert_success_effect w parsed) by done.
  cbn. repeat split; try done.
  unfold selected. cbn.
  rewrite index_small by (unfold size, Int.INT_MAX in *; lia).
  unfold size. by rewrite Nat2Z.id, lookup_app_r, Nat.sub_diag.
Qed.

(** X9.  Delete on a selected row of a window in step removes that Composition
    and its item and nothing else, leaves no row selected, and sets the
    gauge for what remains. *)
Theorem delete_removes_selected w :
  in_step w ->
  0 <= jingleListWidget_currentRow w ->
  size w <= Int.INT_MAX ->
  let r := Z.to_nat (jingleListWidget_currentRow w) in
  let w' := after on_delJingleToolButton_clicked w in
  compositions w' = delete r (compositions w)
  /\ jingleListWidget w' = delete r (jingleListWidget w)
  /\ size w' = size w - 1
  /\ (forall j, (j < r)%nat -> compositions w' !! j = compositions w !! j)
  /\ (forall j, (r <= j)%nat -> compositions w' !! j = compositions w !! S j)
  /\ jingleListWidget_currentRow w' = -1
  /\ gauge_consistent w'
  /\ trace on_delJingleToolButton_clicked w = [].
Proof.
  intros [Hlen Hrow] Hrow0 Hsize. cbv zeta. unfold size in Hrow.
  unfold trace, after.
  rewrite (delete_effect w (Z.to_nat (jingleListWidget_currentRow w))) by lia.
  cbn. unfold size. cbn. repeat split; try done.
  - rewrite length_delete by (apply lookup_lt_is_Some_2; lia). lia.
  - intros j Hj. by apply list_lookup_delete_lt.
  - intros j Hj. by apply list_lookup_delete_ge.
Qed.

(** X10.  Delete, move up and move down without a selected row show the
    message and change nothing. *)
Theorem reorder_and_delete_need_a_selection b w :
  b = DelJingle \/ b = MvJingleUp \/ b = MvJingleDown ->
  jingleListWidget_currentRow w < 0 \/ size w < jingleListWidget_currentRow w ->
  size w <= Int.INT_MAX ->
  trace (clicked b) w = [Information "Error" "Invalid Composition selected" []]
  /\ same_widgets w (after (clicked b) w)
  /\ port (after (clicked b) w) = port w.
Proof.
  intros Hb Hrow Hsize. unfold trace, after.
  rewrite (no_selection_effect b w Hb Hrow Hsize).
  unfold same_widgets. by cbn.
Qed.

(** X11.  A move takes the item along with its Composition and keeps it
    selected: vector and list widget undergo the same exchange, and the
    current row follows. *)
Theorem move_carries_item_and_selection w :
  in_step w ->
  size w <= Int.INT_MAX ->
  let row := jingleListWidget_currentRow w in
  (0 < row ->
   let w' := after on_mvJingleUpToolButton_clicked w in
   adjacent_swap (Z.to_nat row - 1) (compositions w) (compositions w')
   /\ adjacent_swap (Z.to_nat row - 1) (jingleListWidget w) (jingleListWidget w')
   /\ jingleListWidget_currentRow w' = row - 1
   /\ compositions w' !! Z.to_nat (row - 1) = compositions w !! Z.to_nat row)
  /\ (0 <= row < size w - 1 ->
      let w' := after on_mvJingleDownToolButton_clicked w in
      adjacent_swap (Z.to_nat row) (compositions w) (compositions w')
      /\ adjacent_swap (Z.to_nat row) (jingleListWidget w) (jingleListWidget w')
      /\ jingleListWidget_currentRow w' = row + 1
      /\ compositions w' !! Z.to_nat (row + 1) = compositions w !! Z.to_nat row).
Proof.
  intros [Hlen Hrow] Hsize. cbv zeta. unfold size in *. split; intros Hpos.
  - destruct (Z.to_nat (jingleListWidget_currentRow w)) as [|i] eqn:Hi; [lia|].
    replace (S i - 1)%nat with i by lia.
    replace (Z.to_nat (jingleListWidget_currentRow w - 1)) with i by lia.
    destruct (lookup_lt_is_Some_2 (compositions w) i) as [a Ha]; [lia|].
    destruct (lookup_lt_is_Some_2 (compositions w) (S i)) as [c Hc]; [lia|].
    destruct (lookup_lt_is_Some_2 (jingleListWidget w) i) as [x Hx]; [lia|].
    destruct (lookup_lt_is_Some_2 (jingleListWidget w) (S i)) as [y Hy]; [lia|].
    unfold after. rewrite (up_effect w i a c x y) by (done || unfold size; lia).
    cbn. rewrite list_insert_insert_ne by lia.
    split; [by apply insert_insert_adjacent_swap|].
    split; [by apply insert_insert_adjacent_swap|].
    split; [lia|].
    rewrite Hc, list_lookup_insert_ne by lia.
    apply list_lookup_insert_eq. by eapply lookup_lt_Some.
  - set (i := Z.to_nat (jingleListWidget_currentRow w)).
    replace (Z.to_nat (jingleListWidget_currentRow w + 1)) with (S i) by lia.
    destruct (lookup_lt_is_Some_2 (compositions w) i) as [a Ha]; [lia|].
    destruct (lookup_lt_is_Some_2 (compositions w) (S i)) as [c Hc]; [lia|].
    destruct (lookup_lt_is_Some_2 (jingleListWidget w) i) as [x Hx]; [lia|].
    destruct (lookup_lt_is_Some_2 (jingleListWidget w) (S i)) as [y Hy]; [lia|].
    unfold after. rewrite (down_effect w i a c x y) by (done || unfold size; lia).
    cbn.
    split; [by apply insert_insert_adjacent_swap|].
    split; [by apply insert_insert_adjacent_swap|].
    split; [lia|].
    rewrite Ha. apply list_lookup_insert_eq. rewrite length_insert.
    by eapply lookup_lt_Some.
Qed.

(** X12.  Moving a Composition up and then down again, or down and then up,
    gives back the vector, the items and the row. *)
Theorem move_there_and_back_restores w :
  in_step w ->
  size w <= Int.INT_MAX ->
  let row := jingleListWidget_currentRow w in
  let same_rows w' :=
    compositions w' = compositions w
    /\ jingleListWidget w' = jingleListWidget w
    /\ jingleListWidget_currentRow w' = row in
  (0 < row ->
   same_rows (after on_mvJingleDownToolButton_clicked
                (after on_mvJingleUpToolButton_clicked w)))
  /\ (0 <= row < size w - 1 ->
      same_rows (after on_mvJingleUpToolButton_clicked
                   (after on_mvJingleDownToolButton_clicked w))).
Proof.
  intros [Hlen Hrow] Hsize. cbv zeta. unfold size in *. split; intros Hpos.
  - destruct (Z.to_nat (jingleListWidget_currentRow w)) as [|i] eqn:Hi; [lia|].
    destruct (lookup_lt_is_Some_2 (compositions w) i) as [a Ha]; [lia|].
    destruct (lookup_lt_is_Some_2 (compositions w) (S i)) as [c Hc]; [lia|].
    destruct (lookup_lt_is_Some_2 (jingleListWidget w) i) as [x Hx]; [lia|].
    destruct (lookup_lt_is_Some_2 (jingleListWidget w) (S i)) as [y Hy]; [lia|].
    unfold after at 2 4 6.
    rewrite (up_effect w i a c x y) by (done || unfold size; lia).
    cbn [final]. unfold after.
    rewrite (down_effect _ i c a y x); unfold rearranged, size; cbn.
    + rewrite (list_insert_insert_ne _ i (S i) c a) by lia.
      rewrite !swap_twice by done. repeat split; lia.
    + lia.
    + apply list_lookup_insert_eq. rewrite length_insert.
      apply lookup_lt_Some in Ha. lia.
    + rewrite list_lookup_insert_ne by lia.
      apply list_lookup_insert_eq. by eapply lookup_lt_Some.
    + rewrite list_lookup_insert_ne by lia.
      apply list_lookup_insert_eq. apply lookup_lt_Some in Hx. lia.
    + apply list_lookup_insert_eq. rewrite length_insert.
      by eapply lookup_lt_Some.
    + rewrite !length_insert. lia.
  - set (i := Z.to_nat (jingleListWidget_currentRow w)).
    destruct (lookup_lt_is_Some_2 (compositions w) i) as [a Ha]; [lia|].
    destruct (lookup_lt_is_Some_2 (compositions w) (S i)) as [c Hc]; [lia|].
    destruct (lookup_lt_is_Some_2 (jingleListWidget w) i) as [x Hx]; [lia|].
    destruct (lookup_lt_is_Some_2 (jingleListWidget w) (S i)) as [y Hy]; [lia|].
    unfold after at 2 4 6.
    rewrite (down_effect w i a c x y) by (done || unfold size; lia).
    cbn [final]. unfold after.
    rewrite (up_effect _ i c a y x); unfold rearranged, size; cbn.
    + rewrite (list_insert_insert_ne _ i (S i) a c) by lia.
      rewrite !swap_twice by done. repeat split; lia.
    + lia.
    + rewrite list_lookup_insert_ne by lia.
      apply list_lookup_insert_eq. apply lookup_lt_Some in Ha. lia.
    + apply list_lookup_insert_eq. rewrite length_insert.
      by eapply lookup_lt_Some.
    + rewrite list_lookup_insert_ne by lia.
      apply list_lookup_insert_eq. apply lookup_lt_Some in Hx. lia.
    + apply list_lookup_insert_eq. rewrite length_insert.
      by eapply lookup_lt_Some.
    + rewrite !length_insert. lia.
Qed.

Lemma length_delete_le {A} (l : list A) i : (length (delete i l) <= length l)%nat.
Proof.
  destruct (l !! i) eqn:Hi.
  - rewrite length_delete by eauto. lia.
  - rewrite delete_take_drop, take_ge, drop_ge; rewrite ?app_nil_r;
      apply lookup_ge_None in Hi; lia.
Qed.

Lemma other_buttons_do_not_grow b w :
  b <> Convert -> size (after (clicked b) w) <= size w.
Proof.
  intros Hb. unfold after. remember (run (clicked b) w) as o eqn:Ho.
  destruct b; [|done|..]; unfold run, clicked,
    on_playJinglePushButton_clicked, on_delJingleToolButton_clicked,
    on_mvJingleUpToolButton_clicked, on_mvJingleDownToolButton_clicked,
    getSelectedComposition, open, send, call_download, deref, updateMemUsage,
    move_item, vec_at, vec_index, vec_assign in Ho;
    run_handler; rewrite ?length_insert; try lia.
  all: pose proof (length_delete_le (compositions w)
                     (Z.to_nat (jingleListWidget_currentRow w))); lia.
Qed.

(** X13.  Only convert makes the vector longer, by one Composition at a time,
    and not beyond [MAX_NUM_COMPS + 1]; this holds for every window, in
    step or not, and however the handler ends. *)
Theorem only_convert_grows_the_vector b w :
  (b <> Convert -> size (after (clicked b) w) <= size w)
  /\ size (after (clicked b) w) <= size w + 1
  /\ (size w <= MAX_NUM_COMPS + 1 ->
      size (after (clicked b) w) <= MAX_NUM_COMPS + 1).
Proof.
  assert (b = Convert \/ b <> Convert) as [->|Hb]
    by (destruct b; (by left) || (by right)).
  - split; [done|]. cbn [clicked].
    assert (size (after on_convertPushButton_clicked w) <= size w + 1) as Hone.
    { unfold after, run. rewrite convert_unfold.
      destruct (size (set_log [] w) >? MAX_NUM_COMPS); [unfold size; cbn; lia|].
      cbn [musicXmlPathLineEdit set_log].
      destruct (parse (Composition_new (musicXmlPathLineEdit w))) as [err parsed].
      destruct (negb (Composition_NO_ERROR =? err)); [unfold size; cbn; lia|].
      destruct (refresh_keeps_lists (listed (set_log [] w) parsed)) as (Hcs & _).
      unfold size. rewrite Hcs. cbn. rewrite length_app. cbn. lia. }
    split; [done|]. apply convert_keeps_size_bounded.
  - pose proof (other_buttons_do_not_grow b w Hb). split; [done|]. split; lia.
Qed.

(** X14.  The gauge goes on showing the usage of the vector through every click
    on a window in step: delete and a successful convert set it anew, the
    moves only permute the vector, and play changes nothing. *)
Theorem gauge_stays_consistent b w :
  in_step w ->
  size w < Int.INT_MAX ->
  gauge_consistent w ->
  gauge_consistent (after (clicked b) w).
Proof.
  intros [Hlen Hrow] Hsize Hgauge. unfold size in Hrow.
  assert (forall i a c,
            compositions w !! i = Some a -> compositions w !! S i = Some c ->
            total_num_bytes (<[S i := a]> (<[i := c]> (compositions w)))
            = total_num_bytes (compositions w)) as Hswap.
  { intros i a c Ha Hc. rewrite !total_num_bytes_wraps. f_equal. f_equal.
    apply sum_mem_usage_perm.
    by destruct (insert_insert_adjacent_swap _ i a c Ha Hc) as (_ & _ & _ & _ & ?). }
  unfold gauge_consistent in *. destruct b; unfold after.
  - cbn [clicked]. destruct (play_keeps_widgets w) as (Hcs & _ & _ & _ & _ & Hbar & _).
    unfold after in *. by rewrite Hcs, Hbar.
  - cbn [clicked].
    destruct (Z_gt_le_dec (size w) MAX_NUM_COMPS) as [Hfull|Hroom].
    { by rewrite convert_refused_effect. }
    destruct (parse (Composition_new (musicXmlPathLineEdit w)))
      as [err parsed] eqn:Hparse.
    destruct (decide (err = Composition_NO_ERROR)) as [->|Herr].
    + by rewrite (convert_success_effect w parsed).
    + by rewrite (convert_failure_effect w err parsed).
  - destruct (decide (jingleListWidget_currentRow w = -1)) as [Hnone|Hsome].
    { by rewrite (no_selection_effect DelJingle) by (auto; lia). }
    cbn [clicked].
    by rewrite (delete_effect w (Z.to_nat (jingleListWidget_currentRow w))) by lia.
  - destruct (decide (jingleListWidget_currentRow w = -1)) as [Hnone|Hsome].
    { by rewrite (no_selection_effect MvJingleUp) by (auto; lia). }
    cbn [clicked].
    destruct (decide (jingleListWidget_currentRow w = 0)) as [Hfirst|Hlater].
    { by rewrite up_at_first_row by (done || lia). }
    set (i := (Z.to_nat (jingleListWidget_currentRow w) - 1)%nat).
    destruct (lookup_lt_is_Some_2 (compositions w) i) as [a Ha]; [lia|].
    destruct (lookup_lt_is_Some_2 (compositions w) (S i)) as [c Hc]; [lia|].
    destruct (lookup_lt_is_Some_2 (jingleListWidget w) i) as [x Hx]; [lia|].
    destruct (lookup_lt_is_Some_2 (jingleListWidget w) (S i)) as [y Hy]; [lia|].
    rewrite (up_effect w i a c x y) by (done || lia). unfold rearranged.
    cbn [final compositions memUsageProgressBar set_compositions
         set_jingleListWidget set_log].
    rewrite list_insert_insert_ne by lia. by rewrite Hswap.
  - destruct (decide (jingleListWidget_currentRow w = -1)) as [Hnone|Hsome].
    { by rewrite (no_selection_effect MvJingleDown) by (auto; lia). }
    cbn [clicked].
    destruct (decide (jingleListWidget_currentRow w = size w - 1)) as [Hlast|Hearlier].
    { by rewrite down_at_last_row by (done || lia). }
    unfold size in Hearlier.
    set (i := Z.to_nat (jingleListWidget_currentRow w)).
    destruct (lookup_lt_is_Some_2 (compositions w) i) as [a Ha]; [lia|].
    destruct (lookup_lt_is_Some_2 (compositions w) (S i)) as [c Hc]; [lia|].
    destruct (lookup_lt_is_Some_2 (jingleListWidget w) i) as [x Hx]; [lia|].
    destruct (lookup_lt_is_Some_2 (jingleListWidget w) (S i)) as [y Hy]; [lia|].
    rewrite (down_effect w i a c x y) by (done || lia). unfold rearranged.
    cbn [final compositions memUsageProgressBar set_compositions
         set_jingleListWidget set_log].
    by rewrite Hswap.
Qed.

(** *** Sessions: a user at the window *)

Definition set_musicXmlPathLineEdit (path : string)
    (w : MainWindow Composition SCSerial) : MainWindow Composition SCSerial :=
  {| compositions := compositions w;
     jingleListWidget := jingleListWidget w;
     jingleListWidget_currentRow := jingleListWidget_currentRow w;
     musicXmlPathLineEdit := path;
     serialPortComboBox := serialPortComboBox w;
     memUsageProgressBar := memUsageProgressBar w;
     memUsageCurrBytesLabel := memUsageCurrBytesLabel w;
     port := port w;
     log := log w |}.

(** What the user does for one click: make some row of the list current,
    leave some text in the path field, press a button. *)
Record gesture := { chosen_row : Z; typed_path : string; pressed : button }.

Definition prepared (w : MainWindow Composition SCSerial) (g : gesture)
    : MainWindow Composition SCSerial :=
  set_musicXmlPathLineEdit (typed_path g)
    (set_jingleListWidget (jingleListWidget w) (chosen_row g) w).

Definition perform (w : MainWindow Composition SCSerial) (g : gesture)
    : MainWindow Composition SCSerial :=
  after (clicked (pressed g)) (prepared w g).

(** A session: one gesture after the other, each click on the window the
    last one left; it is over when a handler throws or reads outside the
    vector. *)
Fixpoint session (w : MainWindow Composition SCSerial) (gs : list gesture)
    : option (MainWindow Composition SCSerial) :=
  match gs with
  | [] => Some w
  | g :: gs =>
      match run (clicked (pressed g)) (prepared w g) with
      | Returns _ w' => session w' gs
      | Raises _ _ => None
      end
  end.

(** The rows chosen are rows the list has at that moment, or none. *)
Fixpoint offered (w : MainWindow Composition SCSerial) (gs : list gesture) : Prop :=
  match gs with
  | [] => True
  | g :: gs =>
      -1 <= chosen_row g < size w
      /\ match run (clicked (pressed g)) (prepared w g) with
         | Returns _ w' => offered w' gs
         | Raises _ _ => True
         end
  end.

Lemma perform_keeps_size_bounded w g :
  size w <= MAX_NUM_COMPS + 1 -> size (perform w g) <= MAX_NUM_COMPS + 1.
Proof.
  intros Hsize. unfold perform.
  assert (size (prepared w g) = size w) as Hprepared by done.
  destruct (pressed g) eqn:Hb;
    try (etrans; [apply other_buttons_do_not_grow; discriminate|lia]).
  apply convert_keeps_size_bounded. lia.
Qed.

(** X15.  Whatever rows, paths and buttons a session uses, the vector never
    holds more than [MAX_NUM_COMPS + 1] Compositions. *)
Theorem session_keeps_size_bounded w gs w' :
  size w <= MAX_NUM_COMPS + 1 ->
  session w gs = Some w' ->
  size w' <= MAX_NUM_COMPS + 1.
Proof.
  revert w. induction gs as [|g gs IH]; intros w Hsize Hsession.
  - cbn in Hsession. by simplify_eq.
  - cbn [session] in Hsession.
    pose proof (perform_keeps_size_bounded w g Hsize) as Hnext.
    unfold perform, after in Hnext.
    destruct (run (clicked (pressed g)) (prepared w g)) as [[] w1|e w1];
      [|done].
    by apply (IH w1).
Qed.

(** X16.  A session that starts with one item per Composition and only chooses
    rows the list offers runs to its end: no handler throws or reads
    outside the vector, and the list still has one item per Composition. *)
Theorem session_in_step_never_raises w gs :
  length (jingleListWidget w) = length (compositions w) ->
  size w <= MAX_NUM_COMPS + 1 ->
  MAX_NUM_COMPS + 1 < Int.INT_MAX ->
  offered w gs ->
  exists w',
    session w gs = Some w'
    /\ length (jingleListWidget w') = length (compositions w').
Proof.
  intros Hlen Hsize Hmax. revert w Hlen Hsize.
  induction gs as [|g gs IH]; intros w Hlen Hsize Hoffered; [by exists w|].
  destruct Hoffered as [Hrow Hrest]. cbn [session].
  assert (in_step (prepared w g)) as Hstep by done.
  assert (size (prepared w g) = size w) as Hprepared by done.
  destruct (click_keeps_in_step (pressed g) (prepared w g) Hstep)
    as [Hafter [w1 Hret]]; [lia|].
  pose proof (perform_keeps_size_bounded w g Hsize) as Hbound.
  unfold perform, after in Hbound, Hafter. rewrite Hret in *.
  cbn [final] in *. apply IH; try done. by destruct Hafter.
Qed.




End ButtonsOnAWindowInStep.

(** * The settings of the selected Composition

    The rest of the window: the widgets that show the selected
    Composition's measures, tempo, octave adjustment, voices and chords, and
    the handlers that change them. *)

Inductive Channel := LEFT | RIGHT.

(** The further members of [Composition] these handlers use, and the
    conversions of [QString] that have a float or a parse in them.  Setters
    give the Composition as they leave it; their error code is not looked
    at by the window. *)
Class Settings (Composition Float : Type) := {
  getNumMeasures : Composition -> Z;
  getMeasStartIdx : Composition -> Z;
  getMeasEndIdx : Composition -> Z;
  getBpm : Composition -> Z;
  getOctaveAdjust : Composition -> Float;
  getVoiceStrs : Composition -> list string;
  getNoVoiceStr : string;
  getVoice : Composition -> Channel -> string;
  getNumChords : Composition -> string -> Z -> Z -> Z;
  getChordIdx : Composition -> Channel -> Z;
  setMeasStartIdx : Composition -> Z -> Composition;
  setMeasEndIdx : Composition -> Z -> Composition;
  setOctaveAdjust : Composition -> Float -> Composition;
  setBpm : Composition -> Z -> Composition;
  setChordIdx : Composition -> Channel -> Z -> Composition;
  setVoice : Composition -> Channel -> string -> Composition;
  (* QString::toFloat, QString::toUInt, QString().setNum(x, 'f', 2) *)
  toFloat : string -> Float;
  toUInt : string -> Z;
  setNum_f2 : Float -> string
}.

(** [QComboBox], as far as the window uses it. *)
Module ComboBox.

Record t := { items : list string; currentIndex : Z }.

Definition count (cb : t) : Z := Z.of_nat (length (items cb)).

(** [clear()]: no items, no current index. *)
Definition clear : t := {| items := []; currentIndex := -1 |}.

(** [addItem(text)]: appended; the first item of an empty box becomes
    current. *)
Definition addItem (text : string) (cb : t) : t :=
  {| items := items cb ++ [text];
     currentIndex := match items cb with [] => 0 | _ => currentIndex cb end |}.

(** [setCurrentIndex(index)]: an index that is not a row of the box leaves
    no current item. *)
Definition setCurrentIndex (index : Z) (cb : t) : t :=
  {| items := items cb;
     currentIndex := if (0 <=? index) && (index <? count cb) then index else -1 |}.

(** [currentText()] *)
Definition currentText (cb : t) : string :=
  if 0 <=? currentIndex cb
  then default EmptyString (items cb !! Z.to_nat (currentIndex cb))
  else EmptyString.

End ComboBox.

(** [QString::number(n)] for an unsigned [n]: decimal digits. *)
Definition number (n : Z) : string :=
  NilZero.string_of_uint (N.to_uint (Z.to_N n)).

Record Panel := {
  startMeasComboBox : ComboBox.t;
  endMeasComboBox : ComboBox.t;
  bpmLineEdit : string;
  octaveAdjustLineEdit : string;
  chanSourceLeftComboBox : ComboBox.t;
  chanSourceRightComboBox : ComboBox.t;
  chanChordLeftComboBox : ComboBox.t;
  chanChordRightComboBox : ComboBox.t
}.

Definition set_chanChordComboBox (chan : Channel) (cb : ComboBox.t) (p : Panel) : Panel :=
  {| startMeasComboBox := startMeasComboBox p;
     endMeasComboBox := endMeasComboBox p;
     bpmLineEdit := bpmLineEdit p;
     octaveAdjustLineEdit := octaveAdjustLineEdit p;
     chanSourceLeftComboBox := chanSourceLeftComboBox p;
     chanSourceRightComboBox := chanSourceRightComboBox p;
     chanChordLeftComboBox :=
       match chan with LEFT => cb | RIGHT => chanChordLeftComboBox p end;
     chanChordRightComboBox :=
       match chan with LEFT => chanChordRightComboBox p | RIGHT => cb end |}.

Definition chanChordComboBox (chan : Channel) (p : Panel) : ComboBox.t :=
  match chan with
  | LEFT => chanChordLeftComboBox p
  | RIGHT => chanChordRightComboBox p
  end.

Definition chanSourceComboBox (chan : Channel) (p : Panel) : ComboBox.t :=
  match chan with
  | LEFT => chanSourceLeftComboBox p
  | RIGHT => chanSourceRightComboBox p
  end.

Module Display.

Section Display.

Context {Composition SCSerial Float : Type}.
Context `{!Collaborators Composition SCSerial} `{!Settings Composition Float}.

Abbreviation Handler := (@M Composition SCSerial).

(** Writing through a [Composition*]: the slot takes what the member
    function made of the Composition. *)
Definition through (composition : pointer) (member : Composition -> Composition)
    : Handler unit :=
  w <- get ;;
  match composition with
  | nullptr => throw undefined_behaviour
  | slot idx =>
      match compositions w !! idx with
      | Some c => modify (set_compositions (<[idx := member c]> (compositions w)))
      | None => throw undefined_behaviour
      end
  end.

(** The loop [for (i = 0; i < n; i++) combo->addItem(QString::number(i))]. *)
Definition add_numbers (n : Z) (cb : ComboBox.t) : ComboBox.t :=
  foldl (fun cb i => ComboBox.addItem (number i) cb) cb (seqZ 0 n).

Definition updateChordComboBox (chan : Channel) (p : Panel) : Handler Panel :=
  composition <- getSelectedComposition ;;
  match composition with
  | nullptr => ret p
  | _ =>
    let combo_box := ComboBox.clear in
    c <- deref composition ;;
    let voice_str := getVoice c chan in
    if String.eqb voice_str getNoVoiceStr then
      ret (set_chanChordComboBox chan combo_box p)
    else
      let meas_start_idx := Int.to_uint32 (getMeasStartIdx c) in
      let meas_end_idx := Int.to_uint32 (getMeasEndIdx c) in
      let num_chords :=
        Int.to_uint32 (getNumChords c voice_str meas_start_idx meas_end_idx) in
      let combo_box := add_numbers num_chords combo_box in
      let combo_box :=
        ComboBox.setCurrentIndex (Int.to_int (getChordIdx c chan)) combo_box in
      ret (set_chanChordComboBox chan combo_box p)
  end.

(** The loop over [voice_strs] in [updateCompositionDisplay]: each voice
    is added to both boxes, and made current in the box of a channel it
    feeds. *)
Fixpoint add_voices (c : Composition) (voice_strs : list string) (voice_idx : Z)
    (boxes : ComboBox.t * ComboBox.t) : ComboBox.t * ComboBox.t :=
  match voice_strs with
  | [] => boxes
  | voice :: rest =>
      let left := ComboBox.addItem voice boxes.1 in
      let left :=
        if String.eqb voice (getVoice c LEFT)
        then ComboBox.setCurrentIndex (Int.to_int (Int.to_uint32 (voice_idx + 1))) left
        else left in
      let right := ComboBox.addItem voice boxes.2 in
      let right :=
        if String.eqb voice (getVoice c RIGHT)
        then ComboBox.setCurrentIndex (Int.to_int (Int.to_uint32 (voice_idx + 1))) right
        else right in
      add_voices c rest (Int.to_uint32 (voice_idx + 1)) (left, right)
  end.

Definition updateCompositionDisplay (p : Panel) : Handler Panel :=
  composition <- getSelectedComposition ;;
  match composition with
  | nullptr => ret p
  | _ =>
    c <- deref composition ;;
    let meas := add_numbers (getNumMeasures c) ComboBox.clear in
    let start := ComboBox.setCurrentIndex (Int.to_int (getMeasStartIdx c)) meas in
    let stop := ComboBox.setCurrentIndex (Int.to_int (getMeasEndIdx c)) meas in
    let empty :=
      ComboBox.setCurrentIndex 0 (ComboBox.addItem getNoVoiceStr ComboBox.clear) in
    let sources := add_voices c (getVoiceStrs c) 0 (empty, empty) in
    let p :=
      {| startMeasComboBox := start;
         endMeasComboBox := stop;
         bpmLineEdit := number (getBpm c);
         octaveAdjustLineEdit := setNum_f2 (getOctaveAdjust c);
         chanSourceLeftComboBox := sources.1;
         chanSourceRightComboBox := sources.2;
         chanChordLeftComboBox := chanChordLeftComboBox p;
         chanChordRightComboBox := chanChordRightComboBox p |} in
    p <- updateChordComboBox LEFT p ;;
    updateChordComboBox RIGHT p
  end.

Definition on_jingleListWidget_clicked (p : Panel) : Handler Panel :=
  w <- get ;;
  if jingleListWidget_currentRow w <? 0 then ret p
  else updateCompositionDisplay p.

Definition on_startMeasComboBox_activated (index : Z) (p : Panel) : Handler Panel :=
  composition <- getSelectedComposition ;;
  match composition with
  | nullptr => ret p
  | _ =>
    if index <? 0 then
      information "Invalid Start Measure selected" [] ;;;
      ret p
    else
      through composition (fun c => setMeasStartIdx c (Int.to_uint32 index)) ;;;
      p <- updateChordComboBox LEFT p ;;
      p <- updateChordComboBox RIGHT p ;;
      updateMemUsage ;;;
      ret p
  end.

Definition on_endMeasComboBox_activated (index : Z) (p : Panel) : Handler Panel :=
  composition <- getSelectedComposition ;;
  match composition with
  | nullptr => ret p
  | _ =>
    if index <? 0 then
      information "Invalid Start Measure selected" [] ;;;
      ret p
    else
      through composition (fun c => setMeasEndIdx c (Int.to_uint32 index)) ;;;
      p <- updateChordComboBox LEFT p ;;
      p <- updateChordComboBox RIGHT p ;;
      updateMemUsage ;;;
      ret p
  end.

Definition on_octaveAdjustLineEdit_editingFinished (p : Panel) : Handler Panel :=
  composition <- getSelectedComposition ;;
  match composition with
  | nullptr => ret p
  | _ =>
    let octave_adjust := toFloat (octaveAdjustLineEdit p) in
    through composition (fun c => setOctaveAdjust c octave_adjust) ;;;
    ret p
  end.

Definition on_bpmLineEdit_editingFinished (p : Panel) : Handler Panel :=
  composition <- getSelectedComposition ;;
  match composition with
  | nullptr => ret p
  | _ =>
    let bpm := Int.to_uint32 (toUInt (bpmLineEdit p)) in
    through composition (fun c => setBpm c bpm) ;;;
    ret p
  end.

Definition on_chanChordLeftComboBox_activated (index : Z) (p : Panel) : Handler Panel :=
  composition <- getSelectedComposition ;;
  match composition with
  | nullptr => ret p
  | _ =>
    if index <? 0 then
      information "Invalid Left Chord Index selected" [] ;;;
      ret p
    else
      through composition (fun c => setChordIdx c LEFT (Int.to_uint32 index)) ;;;
      ret p
  end.

Definition on_chanChordRightComboBox_activated (index : Z) (p : Panel) : Handler Panel :=
  composition <- getSelectedComposition ;;
  match composition with
  | nullptr => ret p
  | _ =>
    if index <? 0 then
      information "Invalid Right Chord Index selected" [] ;;;
      ret p
    else
      through composition (fun c => setChordIdx c RIGHT (Int.to_uint32 index)) ;;;
      ret p
  end.

Definition on_chanSourceLeftComboBox_activated (voiceStr : string) (p : Panel)
    : Handler Panel :=
  composition <- getSelectedComposition ;;
  match composition with
  | nullptr => ret p
  | _ =>
    through composition (fun c => setVoice c LEFT voiceStr) ;;;
    p <- updateChordComboBox LEFT p ;;
    updateMemUsage ;;;
    ret p
  end.

Definition on_chanSourceRightComboBox_activated (voiceStr : string) (p : Panel)
    : Handler Panel :=
  composition <- getSelectedComposition ;;
  match composition with
  | nullptr => ret p
  | _ =>
    through composition (fun c => setVoice c RIGHT voiceStr) ;;;
    p <- updateChordComboBox RIGHT p ;;
    updateMemUsage ;;;
    ret p
  end.

End Display.

End Display.

(** ** What the combo boxes show *)

Lemma add_numbers_items n cb :
  ComboBox.items (Display.add_numbers n cb)
  = ComboBox.items cb ++ (number <$> seqZ 0 n).
Proof.
  unfold Display.add_numbers. generalize (seqZ 0 n) as l. intros l.
  revert cb. induction l as [|i l IH]; intros cb; cbn.
  - by rewrite app_nil_r.
  - rewrite IH. cbn. by rewrite <- app_assoc.
Qed.

Section SourceBoxes.

Context {Composition Float : Type} `{!Settings Composition Float}.

(** One box of the two that [add_voices] fills. *)
Fixpoint add_voices_to (voice : string) (voice_strs : list string) (voice_idx : Z)
    (cb : ComboBox.t) : ComboBox.t :=
  match voice_strs with
  | [] => cb
  | v :: rest =>
      let cb := ComboBox.addItem v cb in
      let cb :=
        if String.eqb v voice
        then ComboBox.setCurrentIndex (Int.to_int (Int.to_uint32 (voice_idx + 1))) cb
        else cb in
      add_voices_to voice rest (Int.to_uint32 (voice_idx + 1)) cb
  end.

(** The two boxes are filled independently of each other. *)
Lemma add_voices_each (c : Composition) voice_strs voice_idx boxes :
  Display.add_voices c voice_strs voice_idx boxes
  = (add_voices_to (getVoice c LEFT) voice_strs voice_idx boxes.1,
     add_voices_to (getVoice c RIGHT) voice_strs voice_idx boxes.2).
Proof.
  revert voice_idx boxes.
  induction voice_strs as [|v rest IH]; intros voice_idx [left right]; [done|].
  cbn [Display.add_voices add_voices_to fst snd]. by rewrite IH.
Qed.

(** After the loop the box holds the voices behind what it held; the
    current item is untouched when the voice is not among them, and is an
    occurrence of the voice when it is. *)
Lemma add_voices_to_spec voice voice_strs :
  forall voice_idx cb,
    ComboBox.count cb = voice_idx + 1 ->
    0 <= voice_idx ->
    voice_idx + Z.of_nat (length voice_strs) < Int.INT_MAX ->
    let cb' := add_voices_to voice voice_strs voice_idx cb in
    ComboBox.items cb' = ComboBox.items cb ++ voice_strs
    /\ (voice ∉ voice_strs -> ComboBox.currentIndex cb' = ComboBox.currentIndex cb)
    /\ (voice ∈ voice_strs ->
        ComboBox.count cb <= ComboBox.currentIndex cb'
        /\ ComboBox.items cb' !! Z.to_nat (ComboBox.currentIndex cb') = Some voice).
Proof.
  induction voice_strs as [|v rest IH]; intros voice_idx cb Hcount Hidx Hmax.
  { cbn. rewrite app_nil_r. split; [done|]. split; [done|]. by intros ?%elem_of_nil. }
  cbn [add_voices_to]. cbn [length] in Hmax.
  assert (Int.to_uint32 (voice_idx + 1) = voice_idx + 1) as Ewrap
    by (apply to_uint32_small; unfold Int.is_uint32, Int.UINT32_MOD, Int.INT_MAX in *; lia).
  assert (Int.to_int (voice_idx + 1) = voice_idx + 1) as Ecast
    by (apply to_int_small; unfold Int.INT_MAX in *; lia).
  rewrite Ewrap, Ecast.
  set (added := ComboBox.addItem v cb).
  assert (ComboBox.items added = ComboBox.items cb ++ [v]) as Hadded by done.
  assert (ComboBox.count added = voice_idx + 1 + 1) as Hcount'.
  { unfold ComboBox.count in *. rewrite Hadded, length_app. cbn. lia. }
  assert (ComboBox.currentIndex added = ComboBox.currentIndex cb) as Hsame.
  { unfold added, ComboBox.addItem. cbn. unfold ComboBox.count in Hcount.
    destruct (ComboBox.items cb); [cbn in Hcount; lia|done]. }
  set (cb1 := if String.eqb v voice
              then ComboBox.setCurrentIndex (voice_idx + 1) added else added).
  assert (ComboBox.items cb1 = ComboBox.items cb ++ [v]) as Hitems1
    by (unfold cb1; by destruct (String.eqb v voice)).
  assert (ComboBox.count cb1 = voice_idx + 1 + 1) as Hcount1
    by (unfold ComboBox.count in *; rewrite Hitems1, <- Hadded; lia).
  destruct (IH (voice_idx + 1) cb1) as (Hitems & Hnot & Hin); [done|lia|lia|].
  cbv zeta. rewrite Hitems, Hitems1, <- app_assoc. cbn [app].
  split; [done|].
  assert (v = voice -> ComboBox.currentIndex cb1 = voice_idx + 1) as Hset.
  { intros ->. unfold cb1. rewrite String.eqb_refl.
    unfold ComboBox.setCurrentIndex. cbn. rewrite Hcount'.
    destruct (Z.leb_spec 0 (voice_idx + 1)); [|lia].
    destruct (Z.ltb_spec (voice_idx + 1) (voice_idx + 1 + 1)); [done|lia]. }
  assert (v <> voice -> ComboBox.currentIndex cb1 = ComboBox.currentIndex cb) as Hkeep.
  { intros Hne. unfold cb1. by destruct (String.eqb_spec v voice). }
  split.
  - intros Hnone. rewrite Hnot by (intros ?; apply Hnone; by right).
    apply Hkeep. intros ->. apply Hnone. by left.
  - intros Hsome. destruct (decide (voice ∈ rest)) as [Hrest|Hrest].
    + destruct (Hin Hrest) as [Hge Hat]. split; [lia|].
      by rewrite Hitems, Hitems1, <- app_assoc in Hat.
    + rewrite (Hnot Hrest).
      assert (v = voice) as Hv by (apply elem_of_cons in Hsome as [->|?]; done).
      rewrite (Hset Hv). split; [lia|].
      unfold ComboBox.count in Hcount.
      replace (Z.to_nat (voice_idx + 1)) with (length (ComboBox.items cb) + 0)%nat by lia.
      rewrite lookup_app_r by lia.
      replace (length (ComboBox.items cb) + 0 - length (ComboBox.items cb))%nat
        with 0%nat by lia.
      by rewrite Hv.
Qed.

End SourceBoxes.

Section DisplayFacts.

Context {Composition SCSerial Float : Type}.
Context `{!Collaborators Composition SCSerial} `{!Settings Composition Float}.
Implicit Types (w : MainWindow Composition SCSerial) (p : Panel).

Lemma bind_returns {A B} (m : @M Composition SCSerial A)
    (k : A -> @M Composition SCSerial B) w a w' :
  m w = Returns a w' -> bind m k w = k a w'.
Proof. intros Hm. unfold bind. by rewrite Hm. Qed.

Lemma bind_raises {A B} (m : @M Composition SCSerial A)
    (k : A -> @M Composition SCSerial B) w e w' :
  m w = Raises e w' -> bind m k w = Raises e w'.
Proof. intros Hm. unfold bind. by rewrite Hm. Qed.

Lemma deref_found w r c :
  compositions w !! r = Some c -> deref (slot r) w = Returns c w.
Proof. intros Hc. unfold deref. unfold_monad. by rewrite Hc. Qed.

Lemma deref_missing w r :
  compositions w !! r = None -> deref (slot r) w = Raises undefined_behaviour w.
Proof. intros Hc. unfold deref. unfold_monad. by rewrite Hc. Qed.

(** [getSelectedComposition] either reports and gives [nullptr], or gives
    the slot of the row and leaves the window as it is. *)
Lemma selection_cases w :
  getSelectedComposition w
  = Returns nullptr
      (set_log (log w ++ [Information "Error" "Invalid Composition selected" []]) w)
  \/ getSelectedComposition w
     = Returns (slot (Z.to_nat (Int.to_uint32 (jingleListWidget_currentRow w)))) w.
Proof.
  unfold getSelectedComposition. unfold_monad. cbn.
  destruct (_ || _); [by left|by right].
Qed.

(** With a Composition selected, [getSelectedComposition] gives its slot
    and leaves the window as it is. *)
Lemma selection_found w c :
  0 <= jingleListWidget_currentRow w ->
  size w <= Int.INT_MAX ->
  compositions w !! Z.to_nat (jingleListWidget_currentRow w) = Some c ->
  getSelectedComposition w
  = Returns (slot (Z.to_nat (jingleListWidget_currentRow w))) w.
Proof.
  intros Hrow Hsize Hc. apply lookup_lt_Some in Hc as Hlt.
  unfold getSelectedComposition, size in *. unfold_monad. cbn.
  rewrite to_int_small by (unfold Int.INT_MAX in *; lia).
  destruct (Z.gtb_spec (jingleListWidget_currentRow w)
              (Z.of_nat (length (compositions w)))); [lia|].
  destruct (Z.ltb_spec (jingleListWidget_currentRow w) 0); [lia|].
  cbn. by rewrite index_small by (unfold Int.INT_MAX in *; lia).
Qed.

(** The chord box after [updateChordComboBox], for the Composition [c]. *)
Definition chord_box (c : Composition) (chan : Channel) : ComboBox.t :=
  let voice_str := getVoice c chan in
  if String.eqb voice_str getNoVoiceStr then ComboBox.clear
  else
    ComboBox.setCurrentIndex (Int.to_int (getChordIdx c chan))
      (Display.add_numbers
         (Int.to_uint32
            (getNumChords c voice_str (Int.to_uint32 (getMeasStartIdx c))
               (Int.to_uint32 (getMeasEndIdx c))))
         ComboBox.clear).

Lemma updateChordComboBox_at chan p w r c :
  getSelectedComposition w = Returns (slot r) w ->
  compositions w !! r = Some c ->
  Display.updateChordComboBox chan p w
  = Returns (set_chanChordComboBox chan (chord_box c chan) p) w.
Proof.
  intros Hsel Hc. unfold Display.updateChordComboBox.
  rewrite (bind_returns _ _ _ _ _ Hsel).
  rewrite (bind_returns _ _ _ _ _ (deref_found w r c Hc)).
  unfold chord_box. cbv zeta.
  by destruct (String.eqb (getVoice c chan) getNoVoiceStr).
Qed.

Lemma updateChordComboBox_effect chan p w c :
  0 <= jingleListWidget_currentRow w ->
  size w <= Int.INT_MAX ->
  compositions w !! Z.to_nat (jingleListWidget_currentRow w) = Some c ->
  Display.updateChordComboBox chan p w
  = Returns (set_chanChordComboBox chan (chord_box c chan) p) w.
Proof.
  intros Hrow Hsize Hc.
  by apply (updateChordComboBox_at chan p w _ c (selection_found w c Hrow Hsize Hc)).
Qed.

(** X19.  The chord box of a channel: empty while the channel has no voice;
    otherwise one entry per chord of the voice in the measure window,
    numbered from 0, with the channel's chord index current when it is one
    of them and no entry current when it is not. *)
Theorem chord_box_lists_chords_of_voice chan p w c :
  0 <= jingleListWidget_currentRow w ->
  size w <= Int.INT_MAX ->
  compositions w !! Z.to_nat (jingleListWidget_currentRow w) = Some c ->
  let voice := getVoice c chan in
  let n := Int.to_uint32
             (getNumChords c voice (Int.to_uint32 (getMeasStartIdx c))
                (Int.to_uint32 (getMeasEndIdx c))) in
  let k := Int.to_int (getChordIdx c chan) in
  exists p',
    run (Display.updateChordComboBox chan p) w = Returns p' (set_log [] w)
    /\ p' = set_chanChordComboBox chan (chanChordComboBox chan p') p
    /\ (voice = getNoVoiceStr -> chanChordComboBox chan p' = ComboBox.clear)
    /\ (voice <> getNoVoiceStr ->
        ComboBox.items (chanChordComboBox chan p') = number <$> seqZ 0 n
        /\ (0 <= k < n -> ComboBox.currentIndex (chanChordComboBox chan p') = k)
        /\ (~ 0 <= k < n -> ComboBox.currentIndex (chanChordComboBox chan p') = -1)).
Proof.
  intros Hrow Hsize Hc. cbv zeta. unfold run.
  rewrite (updateChordComboBox_effect chan p (set_log [] w) c) by done.
  eexists. split; [done|].
  assert (chanChordComboBox chan (set_chanChordComboBox chan (chord_box c chan) p)
          = chord_box c chan) as -> by (by destruct chan).
  split; [done|]. unfold chord_box.
  destruct (String.eqb_spec (getVoice c chan) getNoVoiceStr) as [Hnone|Hvoice];
    (split; [done|]); intros Hv; [done|].
  set (n := Int.to_uint32 _).
  assert (0 <= n) as Hn by apply to_uint32_range.
  unfold ComboBox.setCurrentIndex, ComboBox.count. cbn.
  rewrite add_numbers_items. cbn. rewrite length_fmap, length_seqZ.
  split; [done|]. split; intros Hk.
  - destruct (Z.leb_spec 0 (Int.to_int (getChordIdx c chan))); [|lia].
    destruct (Z.ltb_spec (Int.to_int (getChordIdx c chan))
                (Z.of_nat (Z.to_nat n))); [done|lia].
  - destruct (Z.leb_spec 0 (Int.to_int (getChordIdx c chan))); [|done].
    destruct (Z.ltb_spec (Int.to_int (getChordIdx c chan))
                (Z.of_nat (Z.to_nat n))); [lia|done].
Qed.

Lemma through_effect w r c (member : Composition -> Composition) :
  compositions w !! r = Some c ->
  Display.through (slot r) member w
  = Returns tt (set_compositions (<[r := member c]> (compositions w)) w).
Proof. intros Hc. unfold Display.through. unfold_monad. by rewrite Hc. Qed.

(** X20.  What [updateCompositionDisplay] puts on the panel for the selected
    Composition: the measure boxes count its measures from 0, the tempo
    field shows its tempo, each source box lists the no-voice entry and
    then its voices, with the channel's voice current if it is one of them
    and the no-voice entry current if not, and the chord boxes are those
    of [updateChordComboBox]. *)
Theorem display_shows_selected_composition p w c :
  0 <= jingleListWidget_currentRow w ->
  size w <= Int.INT_MAX ->
  compositions w !! Z.to_nat (jingleListWidget_currentRow w) = Some c ->
  Z.of_nat (length (getVoiceStrs c)) < Int.INT_MAX ->
  exists p',
    run (Display.updateCompositionDisplay p) w = Returns p' (set_log [] w)
    /\ ComboBox.items (startMeasComboBox p') = number <$> seqZ 0 (getNumMeasures c)
    /\ ComboBox.items (endMeasComboBox p') = number <$> seqZ 0 (getNumMeasures c)
    /\ bpmLineEdit p' = number (getBpm c)
    /\ octaveAdjustLineEdit p' = setNum_f2 (getOctaveAdjust c)
    /\ forall chan,
         let box := chanSourceComboBox chan p' in
         ComboBox.items box = getNoVoiceStr :: getVoiceStrs c
         /\ (getVoice c chan ∈ getVoiceStrs c ->
             ComboBox.currentText box = getVoice c chan)
         /\ (getVoice c chan ∉ getVoiceStrs c ->
             ComboBox.currentIndex box = 0
             /\ ComboBox.currentText box = getNoVoiceStr)
         /\ chanChordComboBox chan p' = chord_box c chan.
Proof.
  intros Hrow Hsize Hc Hvoices. unfold run, Display.updateCompositionDisplay.
  rewrite (bind_returns _ _ _ _ _ (selection_found (set_log [] w) c Hrow Hsize Hc)).
  rewrite (bind_returns _ _ _ _ _ (deref_found (set_log [] w) _ c Hc)).
  rewrite add_voices_each. cbn [fst snd].
  erewrite bind_returns by (by apply (updateChordComboBox_effect LEFT _ _ c)).
  rewrite (updateChordComboBox_effect RIGHT _ _ c) by done.
  eexists. split; [done|]. cbn.
  rewrite !add_numbers_items. cbn. repeat (split; [done|]).
  set (first := ComboBox.setCurrentIndex 0
                  (ComboBox.addItem getNoVoiceStr ComboBox.clear)).
  assert (forall chan,
            chanSourceComboBox chan
              (set_chanChordComboBox RIGHT (chord_box c RIGHT)
                 (set_chanChordComboBox LEFT (chord_box c LEFT)
                    {| startMeasComboBox :=
                         ComboBox.setCurrentIndex (Int.to_int (getMeasStartIdx c))
                           (Display.add_numbers (getNumMeasures c) ComboBox.clear);
                       endMeasComboBox :=
                         ComboBox.setCurrentIndex (Int.to_int (getMeasEndIdx c))
                           (Display.add_numbers (getNumMeasures c) ComboBox.clear);
                       bpmLineEdit := number (getBpm c);
                       octaveAdjustLineEdit := setNum_f2 (getOctaveAdjust c);
                       chanSourceLeftComboBox :=
                         add_voices_to (getVoice c LEFT) (getVoiceStrs c) 0 first;
                       chanSourceRightComboBox :=
                         add_voices_to (getVoice c RIGHT) (getVoiceStrs c) 0 first;
                       chanChordLeftComboBox := chanChordLeftComboBox p;
                       chanChordRightComboBox := chanChordRightComboBox p |}))
            = add_voices_to (getVoice c chan) (getVoiceStrs c) 0 first) as Hbox
    by (by intros []).
  intros chan. cbv zeta. rewrite Hbox.
  destruct (add_voices_to_spec (getVoice c chan) (getVoiceStrs c) 0 first)
    as (Hitems & Hnot & Hin); [done|done|lia|].
  split; [done|]. split; [|split].
  - intros Hvoice. destruct (Hin Hvoice) as [Hge Hat].
    unfold ComboBox.currentText. change (ComboBox.count first) with 1 in Hge.
    destruct (Z.leb_spec 0 (ComboBox.currentIndex
                (add_voices_to (getVoice c chan) (getVoiceStrs c) 0 first))); [|lia].
    by rewrite Hat.
  - intros Hvoice. rewrite (Hnot Hvoice). split; [done|].
    unfold ComboBox.currentText. rewrite (Hnot Hvoice), Hitems. done.
  - by destruct chan.
Qed.

(** The window part of [Display.updateCompositionDisplay] is the handler
    of the same name above: same outcome, same window. *)
Lemma updateCompositionDisplay_same_window p w :
  match Display.updateCompositionDisplay p w, updateCompositionDisplay w with
  | Returns _ w1, Returns _ w2 => w1 = w2
  | Raises e1 w1, Raises e2 w2 => e1 = e2 /\ w1 = w2
  | _, _ => False
  end.
Proof.
  unfold Display.updateCompositionDisplay, updateCompositionDisplay.
  destruct (selection_cases w) as [Hsel|Hsel];
    rewrite !(bind_returns _ _ _ _ _ Hsel); [done|].
  destruct (compositions w
            !! Z.to_nat (Int.to_uint32 (jingleListWidget_currentRow w)))
    as [c|] eqn:Hc.
  - rewrite !(bind_returns _ _ _ _ _ (deref_found w _ c Hc)).
    erewrite bind_returns by (by apply (updateChordComboBox_at LEFT _ w _ c Hsel Hc)).
    by rewrite (updateChordComboBox_at RIGHT _ w _ c Hsel Hc).
  - by rewrite !(bind_raises _ _ _ _ _ (deref_missing w _ Hc)).
Qed.

End DisplayFacts.

(** ** Editing the selected Composition *)

Inductive edit :=
| StartMeas (index : Z)
| EndMeas (index : Z)
| OctaveAdjust
| Bpm
| ChordLeft (index : Z)
| ChordRight (index : Z)
| SourceLeft (voiceStr : string)
| SourceRight (voiceStr : string).

Section Edits.

Context {Composition SCSerial Float : Type}.
Context `{!Collaborators Composition SCSerial} `{!Settings Composition Float}.
Implicit Types (w : MainWindow Composition SCSerial) (p : Panel).

Definition edited (e : edit) (p : Panel) : @M Composition SCSerial Panel :=
  match e with
  | StartMeas index => Display.on_startMeasComboBox_activated index p
  | EndMeas index => Display.on_endMeasComboBox_activated index p
  | OctaveAdjust => Display.on_octaveAdjustLineEdit_editingFinished p
  | Bpm => Display.on_bpmLineEdit_editingFinished p
  | ChordLeft index => Display.on_chanChordLeftComboBox_activated index p
  | ChordRight index => Display.on_chanChordRightComboBox_activated index p
  | SourceLeft voiceStr => Display.on_chanSourceLeftComboBox_activated voiceStr p
  | SourceRight voiceStr => Display.on_chanSourceRightComboBox_activated voiceStr p
  end.

(** The index a combo box hands over, for the edits that come with one. *)
Definition index_of (e : edit) : option Z :=
  match e with
  | StartMeas index | EndMeas index | ChordLeft index | ChordRight index => Some index
  | _ => None
  end.

Definition has_negative_index (e : edit) : Prop :=
  exists index, index_of e = Some index /\ index < 0.

(** The message for a negative index. *)
Definition refusal (e : edit) : string :=
  match e with
  | ChordLeft _ => "Invalid Left Chord Index selected"
  | ChordRight _ => "Invalid Right Chord Index selected"
  | _ => "Invalid Start Measure selected"
  end.

(** The member function an edit calls on the selected Composition. *)
Definition applied (e : edit) (p : Panel) (c : Composition) : Composition :=
  match e with
  | StartMeas index => setMeasStartIdx c (Int.to_uint32 index)
  | EndMeas index => setMeasEndIdx c (Int.to_uint32 index)
  | OctaveAdjust => setOctaveAdjust c (toFloat (octaveAdjustLineEdit p))
  | Bpm => setBpm c (Int.to_uint32 (toUInt (bpmLineEdit p)))
  | ChordLeft index => setChordIdx c LEFT (Int.to_uint32 index)
  | ChordRight index => setChordIdx c RIGHT (Int.to_uint32 index)
  | SourceLeft voiceStr => setVoice c LEFT voiceStr
  | SourceRight voiceStr => setVoice c RIGHT voiceStr
  end.

(** The edits after which the handler calls [updateMemUsage]. *)
Definition refreshes_gauge (e : edit) : bool :=
  match e with
  | StartMeas _ | EndMeas _ | SourceLeft _ | SourceRight _ => true
  | _ => false
  end.

(** The chord boxes an edit refills. *)
Definition refills (e : edit) (chan : Channel) : bool :=
  match e, chan with
  | StartMeas _, _ | EndMeas _, _ => true
  | SourceLeft _, LEFT | SourceRight _, RIGHT => true
  | _, _ => false
  end.

(** The panel once the chord boxes an edit refills show the Composition
    [c]. *)
Definition refilled (e : edit) (c : Composition) (p : Panel) : Panel :=
  let p := if refills e LEFT
           then set_chanChordComboBox LEFT (chord_box c LEFT) p else p in
  if refills e RIGHT then set_chanChordComboBox RIGHT (chord_box c RIGHT) p else p.

Lemma edit_effect e p w c :
  0 <= jingleListWidget_currentRow w ->
  size w <= Int.INT_MAX ->
  compositions w !! Z.to_nat (jingleListWidget_currentRow w) = Some c ->
  (forall index, index_of e = Some index -> 0 <= index) ->
  let cs' := <[Z.to_nat (jingleListWidget_currentRow w) := applied e p c]>
               (compositions w) in
  edited e p w
  = Returns (refilled e (applied e p c) p)
      (if refreshes_gauge e then gauged cs' (set_compositions cs' w)
       else set_compositions cs' w).
Proof.
  intros Hrow Hsize Hc Hindex. cbv zeta.
  set (r := Z.to_nat (jingleListWidget_currentRow w)) in *.
  set (w1 := set_compositions (<[r := applied e p c]> (compositions w)) w).
  assert (compositions w1 !! Z.to_nat (jingleListWidget_currentRow w1)
          = Some (applied e p c)) as Hc1.
  { apply list_lookup_insert_eq. by eapply lookup_lt_Some. }
  assert (size w1 <= Int.INT_MAX) as Hsize1
    by (unfold w1, size in *; cbn; by rewrite length_insert).
  assert (0 <= jingleListWidget_currentRow w1) as Hrow1 by done.
  pose proof (fun chan q =>
                updateChordComboBox_effect chan q w1 (applied e p c)
                  Hrow1 Hsize1 Hc1) as Hbox.
  pose proof (through_effect w r c) as Hthrough.
  destruct e as [index|index| | |index|index|voiceStr|voiceStr];
    cbn [edited applied refreshes_gauge refills refilled];
    unfold Display.on_startMeasComboBox_activated,
      Display.on_endMeasComboBox_activated,
      Display.on_octaveAdjustLineEdit_editingFinished,
      Display.on_bpmLineEdit_editingFinished,
      Display.on_chanChordLeftComboBox_activated,
      Display.on_chanChordRightComboBox_activated,
      Display.on_chanSourceLeftComboBox_activated,
      Display.on_chanSourceRightComboBox_activated;
    rewrite (bind_returns _ _ _ _ _ (selection_found w c Hrow Hsize Hc));
    try (destruct (Z.ltb_spec index 0) as [Hneg|_];
         [specialize (Hindex index eq_refl); lia|]);
    unfold bind at 1; rewrite Hthrough by done; fold w1;
    repeat (unfold bind at 1; rewrite Hbox);
    try (unfold bind at 1; rewrite updateMemUsage_returns);
    done.
Qed.

(** X21.  An edit with a Composition selected (and no negative index) calls
    its setter on that Composition and stores the result in the same
    slot; no other slot, no item and no row changes, nothing is reported.
    After a change of the measure window or of a voice the gauge is set
    for the new vector; after a change of tempo, octave adjustment or
    chord index the gauge is left as it was. *)
Theorem edit_writes_selected_slot e p w c :
  0 <= jingleListWidget_currentRow w ->
  size w <= Int.INT_MAX ->
  compositions w !! Z.to_nat (jingleListWidget_currentRow w) = Some c ->
  (forall index, index_of e = Some index -> 0 <= index) ->
  let r := Z.to_nat (jingleListWidget_currentRow w) in
  let w' := after (edited e p) w in
  compositions w' !! r = Some (applied e p c)
  /\ (forall j, j <> r -> compositions w' !! j = compositions w !! j)
  /\ size w' = size w
  /\ jingleListWidget w' = jingleListWidget w
  /\ jingleListWidget_currentRow w' = jingleListWidget_currentRow w
  /\ trace (edited e p) w = []
  /\ (refreshes_gauge e = true -> gauge_consistent w')
  /\ (refreshes_gauge e = false ->
      memUsageProgressBar w' = memUsageProgressBar w
      /\ memUsageCurrBytesLabel w' = memUsageCurrBytesLabel w).
Proof.
  intros Hrow Hsize Hc Hindex. cbv zeta. unfold trace, after, run.
  rewrite (edit_effect e p (set_log [] w) c) by done.
  cbn [final compositions set_log jingleListWidget_currentRow].
  set (r := Z.to_nat (jingleListWidget_currentRow w)).
  assert (r < length (compositions w))%nat as Hr by (by eapply lookup_lt_Some).
  unfold gauge_consistent, gauged, size.
  destruct (refreshes_gauge e); cbn;
    rewrite ?length_insert, list_lookup_insert_eq by done;
    repeat split; try done; intros j Hj; by rewrite list_lookup_insert_ne.
Qed.

(** X22.  The chord boxes after an edit: a change of the measure window refills
    both for the Composition as the setter left it, a change of a
    channel's voice refills that channel's, and the other edits leave the
    panel alone. *)
Theorem edit_refills_chord_boxes e p w c :
  0 <= jingleListWidget_currentRow w ->
  size w <= Int.INT_MAX ->
  compositions w !! Z.to_nat (jingleListWidget_currentRow w) = Some c ->
  (forall index, index_of e = Some index -> 0 <= index) ->
  exists p' w',
    run (edited e p) w = Returns p' w'
    /\ (forall chan,
          chanChordComboBox chan p'
          = if refills e chan then chord_box (applied e p c) chan
            else chanChordComboBox chan p)
    /\ (forall chan, chanSourceComboBox chan p' = chanSourceComboBox chan p)
    /\ startMeasComboBox p' = startMeasComboBox p
    /\ endMeasComboBox p' = endMeasComboBox p
    /\ bpmLineEdit p' = bpmLineEdit p
    /\ octaveAdjustLineEdit p' = octaveAdjustLineEdit p.
Proof.
  intros Hrow Hsize Hc Hindex. unfold run.
  rewrite (edit_effect e p (set_log [] w) c) by done.
  eexists _, _. split; [done|]. unfold refilled.
  split; [|split]; [intros [] | intros [] |];
    destruct (refills e LEFT), (refills e RIGHT); by cbn.
Qed.

(** X23.  An edit is declined without a selected row, with the message of
    [getSelectedComposition], and for a negative index, with the message
    of its handler; a declined edit changes neither window nor panel. *)
Theorem declined_edit_changes_nothing e p w :
  size w <= Int.INT_MAX ->
  (jingleListWidget_currentRow w < 0 \/ size w < jingleListWidget_currentRow w ->
   run (edited e p) w
   = Returns p (set_log [Information "Error" "Invalid Composition selected" []] w))
  /\ (0 <= jingleListWidget_currentRow w < size w ->
      has_negative_index e ->
      run (edited e p) w
      = Returns p (set_log [Information "Error" (refusal e) []] w)).
Proof.
  intros Hsize. split.
  - intros Hrow.
    assert (getSelectedComposition (set_log [] w)
            = Returns nullptr
                (set_log [Information "Error" "Invalid Composition selected" []] w))
      as Hsel.
    { unfold getSelectedComposition, size, Int.INT_MAX in *. unfold_monad. cbn.
      rewrite to_int_small by (unfold Int.INT_MAX; lia).
      destruct (Z.gtb_spec (jingleListWidget_currentRow w)
                  (Z.of_nat (length (compositions w))));
        destruct (Z.ltb_spec (jingleListWidget_currentRow w) 0);
        cbn; try lia; by destruct w. }
    unfold run. destruct e; cbn [edited];
      unfold Display.on_startMeasComboBox_activated,
        Display.on_endMeasComboBox_activated,
        Display.on_octaveAdjustLineEdit_editingFinished,
        Display.on_bpmLineEdit_editingFinished,
        Display.on_chanChordLeftComboBox_activated,
        Display.on_chanChordRightComboBox_activated,
        Display.on_chanSourceLeftComboBox_activated,
        Display.on_chanSourceRightComboBox_activated;
      by rewrite (bind_returns _ _ _ _ _ Hsel).
  - intros Hrow (index & Hindex & Hneg).
    destruct (lookup_lt_is_Some_2 (compositions w)
                (Z.to_nat (jingleListWidget_currentRow w))) as [c Hc];
      [unfold size in *; lia|].
    assert (getSelectedComposition (set_log [] w)
            = Returns (slot (Z.to_nat (jingleListWidget_currentRow w)))
                (set_log [] w)) as Hsel
      by (apply (selection_found (set_log [] w) c); [cbn; lia|done|done]).
    unfold run. destruct e; cbn in Hindex; simplify_eq; cbn [edited refusal];
      unfold Display.on_startMeasComboBox_activated,
        Display.on_endMeasComboBox_activated,
        Display.on_chanChordLeftComboBox_activated,
        Display.on_chanChordRightComboBox_activated;
      rewrite (bind_returns _ _ _ _ _ Hsel);
      (destruct (Z.ltb_spec index 0); [|lia]);
      unfold_monad; cbn; by destruct w.
Qed.

End Edits.

(** ** More on the gauge *)

Section GaugeReadings.

Context {Composition SCSerial : Type}.
Context `{!Collaborators Composition SCSerial}.
Implicit Types (w : MainWindow Composition SCSerial).

Lemma total_num_bytes_nonneg (cs : list Composition) : 0 <= total_num_bytes cs.
Proof. rewrite total_num_bytes_wraps. apply to_uint32_range. Qed.

(** X17.  The bar is full exactly when the byte count has reached
    [MAX_EEPROM_BYTES]. *)
Theorem gauge_full_exactly_at_capacity w :
  memUsageProgressBar (after updateMemUsage w) = 100
  <-> total_num_bytes (compositions w) >= MAX_EEPROM_BYTES.
Proof.
  unfold after, run. rewrite updateMemUsage_returns.
  cbn [final memUsageProgressBar set_memUsage compositions set_log].
  pose proof (total_num_bytes_nonneg (compositions w)) as Hnb.
  unfold progress_value, PROG_BAR_MAX.
  destruct (Z.geb_spec (total_num_bytes (compositions w)) MAX_EEPROM_BYTES)
    as [Hge|Hlt].
  - split; [lia|done].
  - pose proof (wrapped_percentage_le_99 (total_num_bytes (compositions w))
                  MAX_EEPROM_BYTES) as Hp.
    rewrite to_int_small by (unfold Int.INT_MAX; lia). lia.
Qed.

(** X18.  As long as a hundred times the byte count fits 32 bits, a window that
    uses more bytes never shows less on the bar. *)
Theorem gauge_grows_with_usage w w' :
  total_num_bytes (compositions w) <= total_num_bytes (compositions w') ->
  Int.is_uint32 (100 * total_num_bytes (compositions w')) ->
  memUsageProgressBar (after updateMemUsage w)
  <= memUsageProgressBar (after updateMemUsage w').
Proof.
  intros Hle Hfits. unfold after, run. rewrite !updateMemUsage_returns.
  cbn [final memUsageProgressBar set_memUsage compositions set_log].
  pose proof (total_num_bytes_nonneg (compositions w)) as Ha.
  set (a := total_num_bytes (compositions w)) in *.
  set (b := total_num_bytes (compositions w')) in *.
  pose proof (progress_value_range a Ha) as Hrange.
  unfold Int.is_uint32, Int.UINT32_MOD in Hfits.
  unfold progress_value, PROG_BAR_MAX in *.
  destruct (Z.geb_spec b MAX_EEPROM_BYTES) as [Hfull|Hb]; [lia|].
  destruct (Z.geb_spec a MAX_EEPROM_BYTES) as [Hge|Hlt]; [lia|].
  rewrite !to_uint32_small by (unfold Int.is_uint32, Int.UINT32_MOD; lia).
  assert (100 * a / MAX_EEPROM_BYTES <= 100 * b / MAX_EEPROM_BYTES)
    by (apply Z.div_le_mono; lia).
  assert (0 <= 100 * a / MAX_EEPROM_BYTES) by (apply Z.div_pos; lia).
  assert (100 * b / MAX_EEPROM_BYTES < 100)
    by (apply Z.div_lt_upper_bound; lia).
  rewrite !to_int_small by (unfold Int.INT_MAX; lia). lia.
Qed.

End GaugeReadings.

(** ** Further scenarios on the bench *)

Module Studio.

Import Bench.

(** The bench with a port that opens with code [open_err] and a payload
    write that ends with code [download_err]. *)
Definition faulty (open_err download_err : Z) : Collaborators Composition SCSerial :=
  {| EEPROM_HDR_NUM_BYTES := 10;
     MAX_EEPROM_BYTES := 1000;
     MAX_NUM_COMPS := 2;
     Composition_NO_ERROR := 0;
     Composition_new := fun name => {| filename := name; parsed := false; mem_usage := 0 |};
     parse := parse_file;
     getMemUsage := mem_usage;
     download := fun c s idx => (download_err, (transfer c s idx).2);
     SCSerial_NO_ERROR := 0;
     serial_open := fun name s => (open_err, (acquire name s).2);
     serial_send := exchange |}.

(** Scores on the bench: four measures, two voices, the left channel fed
    by the second voice of a parsed score and the right channel by none.
    Narrowing the measure window saves ten bytes a measure. *)
#[export] Instance settings : Settings Composition Z :=
  {| getNumMeasures := fun _ => 4;
     getMeasStartIdx := fun _ => 0;
     getMeasEndIdx := fun _ => 3;
     getBpm := fun _ => 120;
     getOctaveAdjust := fun _ => 100;
     getVoiceStrs := fun _ => ["P1-1"; "P1-2"]%string;
     getNoVoiceStr := "None";
     getVoice := fun c chan =>
       match chan with
       | LEFT => if parsed c then "P1-2"%string else "None"%string
       | RIGHT => "None"%string
       end;
     getNumChords := fun _ _ first last => 3 * (last - first + 1);
     getChordIdx := fun _ _ => 5;
     setMeasStartIdx := fun c index =>
       {| filename := filename c; parsed := parsed c;
          mem_usage := mem_usage c - 10 * index |};
     setMeasEndIdx := fun c index =>
       {| filename := filename c; parsed := parsed c;
          mem_usage := mem_usage c - 10 * (3 - index) |};
     setOctaveAdjust := fun c _ => c;
     setBpm := fun c _ => c;
     setChordIdx := fun c _ _ => c;
     setVoice := fun c _ _ => c;
     toFloat := fun _ => 100;
     toUInt := fun _ => 90;
     setNum_f2 := fun _ => "1.00"%string |}.

Definition blank : Panel :=
  {| startMeasComboBox := ComboBox.clear;
     endMeasComboBox := ComboBox.clear;
     bpmLineEdit := EmptyString;
     octaveAdjustLineEdit := EmptyString;
     chanSourceLeftComboBox := ComboBox.clear;
     chanSourceRightComboBox := ComboBox.clear;
     chanChordLeftComboBox := ComboBox.clear;
     chanChordRightComboBox := ComboBox.clear |}.

Definition nothing_selected := window [tune; march; waltz] (-1) EmptyString obliging.
Definition empty := window [] (-1) EmptyString obliging.
Definition small := window [waltz] 0 EmptyString obliging.

(** Add two files, move the second up and delete it. *)
Definition afternoon : list gesture :=
  [ {| chosen_row := -1; typed_path := "a.musicxml"; pressed := Convert |};
    {| chosen_row := 0; typed_path := "b.musicxml"; pressed := Convert |};
    {| chosen_row := 1; typed_path := EmptyString; pressed := MvJingleUp |};
    {| chosen_row := 0; typed_path := EmptyString; pressed := DelJingle |} ].

End Studio.

Section FurtherScenarios.

Import Bench Studio.

Example afternoon_leaves_first_file :
  (fun w => (filename <$> compositions w, jingleListWidget w))
    <$> session empty afternoon
  = Some (["a.musicxml"%string], ["a"%string]).
Proof. by vm_compute. Qed.


Lemma play_reports_port_that_does_not_open_witness :
  port (after (@on_playJinglePushButton_clicked _ _ (faulty 7 0)) two_large)
  = {| script := script obliging; received := []; is_open := true |}.
Proof.
  destruct (@play_reports_port_that_does_not_open _ _ (faulty 7 0) two_large 7
              {| script := script obliging; received := []; is_open := true |})
    as [_ Hport].
  - discriminate.
  - by vm_compute.
  - reflexivity.
  - discriminate.
  - exact Hport.
Defined.

Lemma download_failure_stops_before_play_witness :
  trace (@on_playJinglePushButton_clicked _ _ (faulty 0 3)) two_large
  = [SerialOpen (serialPortComboBox two_large) 0;
     SerialSend clear_cmd clear_resp 0;
     Download tune 0 3;
     Information "Error"
       ("Cannot download to %1." +:+ QStr.LF +:+ QStr.LF +:+ "Error: %2")
       [ArgStr (serialPortComboBox two_large); ArgCompositionError 3]].
Proof.
  destruct (@download_failure_stops_before_play _ _ (faulty 0 3) two_large tune 0 3)
    as [Htrace _].
  - vm_compute. auto.
  - discriminate.
  - exact Htrace.
Defined.

Lemma play_hands_port_from_step_to_step_witness :
  port (after on_playJinglePushButton_clicked two_large)
  = {| script := script obliging;
       received := [clear_cmd; "<payload>"%string; play_cmd];
       is_open := true |}.
Proof.
  destruct (play_hands_port_from_step_to_step two_large tune
              {| script := script obliging; received := []; is_open := true |}
              {| script := script obliging; received := [clear_cmd]; is_open := true |}
              {| script := script obliging;
                 received := [clear_cmd; "<payload>"%string]; is_open := true |}
              {| script := script obliging;
                 received := [clear_cmd; "<payload>"%string; play_cmd];
                 is_open := true |})
    as (_ & Hport & _); [by vm_compute..|exact Hport].
Defined.

Lemma selection_by_row_witness :
  run getSelectedComposition three = Returns (slot 1) (set_log [] three)
  /\ exists w',
       run getSelectedComposition nothing_selected = Returns nullptr w'
       /\ log w' = [Information "Error" "Invalid Composition selected" []].
Proof.
  pose proof (selection_by_row three) as Hrow. cbv zeta in Hrow.
  destruct Hrow as [_ Hinside]; [by vm_compute|].
  pose proof (selection_by_row nothing_selected) as Hnone. cbv zeta in Hnone.
  destruct Hnone as [Houtside _]; [by vm_compute|].
  split.
  - apply Hinside. by vm_compute.
  - destruct Houtside as (w' & Hrun & Hlog & _); [left; by vm_compute|].
    exists w'. by split.
Defined.


Lemma convert_appends_and_selects_witness :
  jingleListWidget_currentRow (after on_convertPushButton_clicked full) = 2
  /\ gauge_consistent (after on_convertPushButton_clicked full).
Proof.
  pose proof (convert_appends_and_selects full) as Hadd. cbv zeta in Hadd.
  destruct Hadd as (_ & _ & Hrow & _ & Hgauge & _).
  - split; [reflexivity|by vm_compute].
  - by vm_compute.
  - by vm_compute.
  - reflexivity.
  - split; [exact Hrow|exact Hgauge].
Defined.

Lemma delete_removes_selected_witness :
  compositions (after on_delJingleToolButton_clicked three) = [tune; waltz]
  /\ jingleListWidget_currentRow (after on_delJingleToolButton_clicked three) = -1.
Proof.
  pose proof (delete_removes_selected three) as Hdel. cbv zeta in Hdel.
  destruct Hdel as (Hcs & _ & _ & _ & _ & Hrow & _).
  - split; [reflexivity|by vm_compute].
  - by vm_compute.
  - by vm_compute.
  - split; [exact Hcs|exact Hrow].
Defined.

Lemma reorder_and_delete_need_a_selection_witness :
  trace (clicked MvJingleUp) nothing_selected
  = [Information "Error" "Invalid Composition selected" []].
Proof.
  destruct (reorder_and_delete_need_a_selection MvJingleUp nothing_selected)
    as [Htrace _].
  - right. by left.
  - left. by vm_compute.
  - by vm_compute.
  - exact Htrace.
Defined.

Lemma move_carries_item_and_selection_witness :
  adjacent_swap 0 (jingleListWidget three)
    (jingleListWidget (after on_mvJingleUpToolButton_clicked three))
  /\ jingleListWidget_currentRow (after on_mvJingleDownToolButton_clicked three) = 1 + 1.
Proof.
  pose proof (move_carries_item_and_selection three) as Hmove. cbv zeta in Hmove.
  destruct Hmove as [Hup Hdown].
  - split; [reflexivity|by vm_compute].
  - by vm_compute.
  - destruct Hup as (_ & Hitems & _); [by vm_compute|].
    destruct Hdown as (_ & _ & Hrow & _); [by vm_compute|].
    split; [exact Hitems|exact Hrow].
Defined.

Lemma move_there_and_back_restores_witness :
  compositions (after on_mvJingleDownToolButton_clicked
                  (after on_mvJingleUpToolButton_clicked three))
  = compositions three.
Proof.
  pose proof (move_there_and_back_restores three) as Hback. cbv zeta in Hback.
  destruct Hback as [Hupdown _].
  - split; [reflexivity|by vm_compute].
  - by vm_compute.
  - destruct Hupdown as [Hcs _]; [by vm_compute|exact Hcs].
Defined.

Lemma only_convert_grows_the_vector_witness :
  size (after (clicked DelJingle) three) <= size three
  /\ size (after (clicked Convert) full) <= MAX_NUM_COMPS + 1.
Proof.
  destruct (only_convert_grows_the_vector DelJingle three) as (Hother & _).
  destruct (only_convert_grows_the_vector Convert full) as (_ & _ & Hbound).
  split.
  - apply Hother. discriminate.
  - apply Hbound. by vm_compute.
Defined.

Lemma gauge_stays_consistent_witness :
  gauge_consistent (after (clicked MvJingleDown) (after updateMemUsage three)).
Proof.
  apply (gauge_stays_consistent MvJingleDown (after updateMemUsage three)).
  - split; [reflexivity|by vm_compute].
  - by vm_compute.
  - by vm_compute.
Defined.

Lemma session_keeps_size_bounded_witness :
  exists w', session empty afternoon = Some w' /\ size w' <= MAX_NUM_COMPS + 1.
Proof.
  eexists. split; [vm_compute; reflexivity|].
  apply (session_keeps_size_bounded empty afternoon); [by vm_compute|].
  vm_compute. reflexivity.
Defined.

Lemma session_in_step_never_raises_witness :
  exists w',
    session empty afternoon = Some w'
    /\ length (jingleListWidget w') = length (compositions w').
Proof.
  apply (session_in_step_never_raises empty afternoon).
  - reflexivity.
  - by vm_compute.
  - by vm_compute.
  - vm_compute. repeat split; discriminate.
Defined.


Lemma gauge_full_exactly_at_capacity_witness :
  memUsageProgressBar (after updateMemUsage three) = 100.
Proof.
  apply (gauge_full_exactly_at_capacity three). by vm_compute.
Defined.

Lemma gauge_grows_with_usage_witness :
  memUsageProgressBar (after updateMemUsage small)
  <= memUsageProgressBar (after updateMemUsage refused).
Proof.
  apply (gauge_grows_with_usage small refused).
  - by vm_compute.
  - by vm_compute.
Defined.

Example panel_of_a_parsed_score :
  (fun o => match o with
            | Returns p' _ =>
                (ComboBox.items (startMeasComboBox p'),
                 ComboBox.currentText (chanSourceLeftComboBox p'),
                 ComboBox.currentText (chanSourceRightComboBox p'),
                 ComboBox.items (chanChordLeftComboBox p'),
                 ComboBox.currentIndex (chanChordLeftComboBox p'))
            | Raises _ _ => ([], EmptyString, EmptyString, [], 0)
            end) (run (Display.updateCompositionDisplay blank) small)
  = (["0"; "1"; "2"; "3"]%string, "P1-2"%string, "None"%string,
     ["0"; "1"; "2"; "3"; "4"; "5"; "6"; "7"; "8"; "9"; "10"; "11"]%string, 5).
Proof. by vm_compute. Qed.

Lemma chord_box_lists_chords_of_voice_witness :
  exists p',
    run (Display.updateChordComboBox RIGHT blank) small = Returns p' (set_log [] small)
    /\ chanChordComboBox RIGHT p' = ComboBox.clear.
Proof.
  pose proof (chord_box_lists_chords_of_voice RIGHT blank small waltz) as Hbox.
  cbv zeta in Hbox. destruct Hbox as (p' & Hrun & _ & Hnone & _).
  - by vm_compute.
  - by vm_compute.
  - reflexivity.
  - exists p'. split; [exact Hrun|]. by apply Hnone.
Defined.

Lemma display_shows_selected_composition_witness :
  exists p',
    run (Display.updateCompositionDisplay blank) small = Returns p' (set_log [] small)
    /\ ComboBox.currentText (chanSourceComboBox LEFT p') = "P1-2"%string
    /\ bpmLineEdit p' = "120"%string.
Proof.
  destruct (display_shows_selected_composition blank small waltz)
    as (p' & Hrun & _ & _ & Hbpm & _ & Hsources).
  - by vm_compute.
  - by vm_compute.
  - reflexivity.
  - by vm_compute.
  - exists p'. split; [exact Hrun|]. split; [|exact Hbpm].
    destruct (Hsources LEFT) as (_ & Hlisted & _).
    apply Hlisted. vm_compute. constructor 2. constructor 1.
Defined.

Lemma edit_writes_selected_slot_witness :
  compositions (after (edited (StartMeas 2) blank) three) !! 1%nat
  = Some (jingle "march.musicxml" 580)
  /\ gauge_consistent (after (edited (StartMeas 2) blank) three).
Proof.
  pose proof (edit_writes_selected_slot (StartMeas 2) blank three march) as Hedit.
  cbv zeta in Hedit.
  destruct Hedit as (Hslot & _ & _ & _ & _ & _ & Hgauge & _).
  - by vm_compute.
  - by vm_compute.
  - reflexivity.
  - intros index Hindex. cbn in Hindex. by simplify_eq.
  - split; [exact Hslot|by apply Hgauge].
Defined.

Lemma edit_refills_chord_boxes_witness :
  exists p' w',
    run (edited (SourceLeft "P1-1") blank) three = Returns p' w'
    /\ chanChordComboBox RIGHT p' = chanChordComboBox RIGHT blank.
Proof.
  destruct (edit_refills_chord_boxes (SourceLeft "P1-1") blank three march)
    as (p' & w' & Hrun & Hboxes & _).
  - by vm_compute.
  - by vm_compute.
  - reflexivity.
  - intros index Hindex. cbn in Hindex. by simplify_eq.
  - exists p', w'. split; [exact Hrun|]. exact (Hboxes RIGHT).
Defined.

Lemma declined_edit_changes_nothing_witness :
  run (edited (EndMeas (-1)) blank) three
  = Returns blank
      (set_log [Information "Error" "Invalid Start Measure selected" []] three)
  /\ run (edited Bpm blank) nothing_selected
     = Returns blank
         (set_log [Information "Error" "Invalid Composition selected" []]
            nothing_selected).
Proof.
  destruct (declined_edit_changes_nothing (EndMeas (-1)) blank three)
    as [_ Hnegative]; [by vm_compute|].
  destruct (declined_edit_changes_nothing Bpm blank nothing_selected)
    as [Hunselected _]; [by vm_compute|].
  split.
  - apply Hnegative; [by vm_compute|]. exists (-1). by split.
  - apply Hunselected. left. by vm_compute.
Defined.

End FurtherScenarios.
